(** * Text preprocessing: tokenizer, vocabulary and corpus encoder

    A shallow embedding of the Python code of
    [chapter_recurrent-neural-networks/text-preprocessing.ipynb]
    ([read_time_machine], [tokenize], [count_corpus], class [Vocab] and
    [load_corpus_time_machine]) together with the properties its
    specification states about it.

    Conventions of the embedding:
    - a Python [str] is a [string]; a character is an [ascii], read as a code
      point of the 8-bit range;
    - a Python [int] is a [Z];
    - a [dict] whose insertion order is observed ([collections.Counter]) is an
      association list in insertion order; a [dict] that is only looked up
      ([token_to_idx]) is a [gmap];
    - a call that may raise returns a [result]; text written by [print] is
      returned as a list of lines. *)

From Stdlib Require Import ZArith Ascii.
From stdpp Require Import gmap strings list fin_maps sorting.

Local Open Scope Z_scope.

(** ** Python values used by the code *)

Inductive exn : Type :=
  | IndexError
  | TypeError
  | ValueError.

Inductive result (A : Type) : Type :=
  | Return (v : A)
  | Raise (e : exn).
Arguments Return {A} v.
Arguments Raise {A} e.

Definition raises {A : Type} (r : result A) : bool :=
  match r with
  | Return _ => false
  | Raise _ => true
  end.

(** [l[i]] on a Python list: a negative index counts from the end, and an
    index outside [-len(l), len(l)) raises [IndexError]. *)
Definition py_getitem {A : Type} (l : list A) (i : Z) : result A :=
  let j := if bool_decide (i < 0) then i + Z.of_nat (length l) else i in
  if bool_decide (0 ≤ j) then
    match l !! Z.to_nat j with
    | Some x => Return x
    | None => Raise IndexError
    end
  else Raise IndexError.

(** [l[:n]] on a Python list, for the case [n > 0] in which the code uses it. *)
Definition py_slice_to {A : Type} (l : list A) (n : Z) : list A :=
  if bool_decide (0 ≤ n) then take (Z.to_nat n) l
  else take (length l - Z.to_nat (- n))%nat l.

(** ** Characters and the string methods the loader and tokenizer call

    The predicates and [lower_char] follow Python on the code points 0..255.
    A character beyond that range is outside [A-Za-z], so [re.sub] replaces
    it like any other non-letter before [strip], [lower] or [split] see it. *)

Definition code (c : ascii) : N := N_of_ascii c.

(** The character class [A-Za-z] of the regular expression. *)
Definition is_alpha (c : ascii) : bool :=
  ((65 <=? code c) && (code c <=? 90) || (97 <=? code c) && (code c <=? 122))%N.

(** [str.isspace] on one character of the 8-bit range. *)
Definition isspace (c : ascii) : bool :=
  ((9 <=? code c) && (code c <=? 13) || (28 <=? code c) && (code c <=? 32)
   || (code c =? 133) || (code c =? 160))%N.

(** [str.lower] on one character of the 8-bit range: [A-Z] and the accented
    capitals 192..222 (but not the multiplication sign 215) move up by 32. *)
Definition lower_char (c : ascii) : ascii :=
  if ((65 <=? code c) && (code c <=? 90)
      || (192 <=? code c) && (code c <=? 222) && negb (code c =? 215))%N
  then ascii_of_N (code c + 32)
  else c.

Definition space : ascii := ascii_of_N 32.

(** [re.sub('[^A-Za-z]+', ' ', s)]: every maximal run of characters outside
    [A-Za-z] becomes one space.  [in_run] tells that the run the current
    character belongs to has already been replaced. *)
Fixpoint re_sub_go (in_run : bool) (s : string) : string :=
  match s with
  | EmptyString => EmptyString
  | String c s' =>
      if is_alpha c then String c (re_sub_go false s')
      else if in_run then re_sub_go true s'
      else String space (re_sub_go true s')
  end.

Definition re_sub_nonalpha (s : string) : string := re_sub_go false s.

Fixpoint lstrip (s : string) : string :=
  match s with
  | EmptyString => EmptyString
  | String c s' => if isspace c then lstrip s' else s
  end.

Fixpoint rstrip (s : string) : string :=
  match s with
  | EmptyString => EmptyString
  | String c s' =>
      match rstrip s' with
      | EmptyString => if isspace c then EmptyString else String c EmptyString
      | r => String c r
      end
  end.

(** [s.strip()] *)
Definition strip (s : string) : string := rstrip (lstrip s).

(** [s.lower()] *)
Fixpoint lower (s : string) : string :=
  match s with
  | EmptyString => EmptyString
  | String c s' => String (lower_char c) (lower s')
  end.

(** [s.split()]: the maximal runs of non-whitespace characters, in order.
    [w] is the word read so far. *)
Fixpoint split_go (w : string) (s : string) : list string :=
  match s with
  | EmptyString => match w with EmptyString => [] | _ => [w] end
  | String c s' =>
      if isspace c then
        match w with
        | EmptyString => split_go EmptyString s'
        | _ => w :: split_go EmptyString s'
        end
      else split_go (w +:+ String c EmptyString) s'
  end.

Definition split (s : string) : list string := split_go EmptyString s.

(** [sep.join(ws)] *)
Fixpoint join (sep : string) (ws : list string) : string :=
  match ws with
  | [] => EmptyString
  | [w] => w
  | w :: ws' => w +:+ sep +:+ join sep ws'
  end.

(** [list(s)]: the characters of [s], each a string of length one. *)
Fixpoint list_of_str (s : string) : list string :=
  match s with
  | EmptyString => []
  | String c s' => String c EmptyString :: list_of_str s'
  end.

(** ** Corpus loader *)

(** [read_time_machine]: [raw] is what [f.readlines()] returned. *)
Definition normalize_line (line : string) : string :=
  lower (strip (re_sub_nonalpha line)).

Definition read_time_machine (raw : list string) : list string :=
  normalize_line <$> raw.

(** ** Tokenizer *)

(** The message of the last branch, as the bytes of its UTF-8 encoding. *)
Definition unknown_token_type_msg : string :=
  "错误：未知令牌类型：".

(** [tokenize(lines, token)].  The first component is what the call printed;
    the second is how it ended: every branch returns, the last one returns
    [None] (there is no [return] statement after the [print]). *)
Definition tokenize (lines : list string) (token : string)
  : list string * result (option (list (list string))) :=
  if bool_decide (token = "word") then
    ([], Return (Some (split <$> lines)))
  else if bool_decide (token = "char") then
    ([], Return (Some (list_of_str <$> lines)))
  else
    ([unknown_token_type_msg +:+ token], Return None).


(** ** Vocabulary builder *)

(** The argument [tokens] of [Vocab] and [count_corpus]: a 1D list of tokens
    or a 2D list (a list of lines, each a list of tokens). *)
Inductive tokens_arg : Type :=
  | Tokens1D (ts : list string)
  | Tokens2D (lines : list (list string)).

(** [collections.Counter(elems)]: the entries in the order in which their keys
    were first met; [counter_add] is the update [c[t] += 1]. *)
Fixpoint counter_add (c : list (string * nat)) (t : string)
  : list (string * nat) :=
  match c with
  | [] => [(t, 1%nat)]
  | (k, n) :: c' =>
      if bool_decide (k = t) then (k, S n) :: c'
      else (k, n) :: counter_add c' t
  end.

Definition Counter (elems : list string) : list (string * nat) :=
  foldl counter_add [] elems.

(** The list that [count_corpus] hands to [Counter]: the input is flattened
    when it is empty or its first element is a list. *)
Definition flatten (tokens : tokens_arg) : list string :=
  match tokens with
  | Tokens1D [] => concat []
  | Tokens1D ts => ts
  | Tokens2D lines => concat lines
  end.

Definition count_corpus (tokens : tokens_arg) : list (string * nat) :=
  Counter (flatten tokens).

(** [sorted(items, key=lambda x: x[1], reverse=True)]: a stable sort by
    descending count; entries of equal count keep their order. *)
Fixpoint insert_desc (x : string * nat) (l : list (string * nat))
  : list (string * nat) :=
  match l with
  | [] => [x]
  | y :: l' =>
      if bool_decide (x.2 < y.2)%nat then y :: insert_desc x l'
      else x :: y :: l'
  end.

Definition sorted_desc (l : list (string * nat)) : list (string * nat) :=
  foldr insert_desc [] l.

Record Vocab : Type := mkVocab {
  token_freqs : list (string * nat);
  unk : Z;
  idx_to_token : list string;
  token_to_idx : gmap string Z
}.

Definition unk_token : string := "<unk>".

(** One turn of the loop [for token in uniq_tokens]. *)
Definition add_token (st : list string * gmap string Z) (token : string)
  : list string * gmap string Z :=
  let idx_to_token := st.1 ++ [token] in
  (idx_to_token, <[token := Z.of_nat (length idx_to_token) - 1]> st.2).

(** The tokens the list comprehension of [__init__] appends: it tests
    membership in [uniq_tokens] as it is before the [+=]. *)
Definition corpus_tokens (token_freqs : list (string * nat)) (min_freq : Z)
    (uniq_tokens : list string) : list string :=
  (filter (λ tf, min_freq ≤ Z.of_nat tf.2 ∧ tf.1 ∉ uniq_tokens) token_freqs).*1.

(** [Vocab.__init__(self, tokens=None, min_freq=0, reserved_tokens=None)] *)
Definition Vocab_init (tokens : option tokens_arg) (min_freq : Z)
    (reserved_tokens : option (list string)) : Vocab :=
  let tokens := default (Tokens1D []) tokens in
  let reserved_tokens := default [] reserved_tokens in
  let counter := count_corpus tokens in
  let token_freqs := sorted_desc counter in
  let uniq_tokens := [unk_token] ++ reserved_tokens in
  let uniq_tokens := uniq_tokens ++ corpus_tokens token_freqs min_freq uniq_tokens in
  let st := foldl add_token ([], ∅) uniq_tokens in
  {| token_freqs := token_freqs; unk := 0;
     idx_to_token := st.1; token_to_idx := st.2 |}.

Arguments Vocab_init : simpl never.

(** [Vocab.__len__] *)
Definition Vocab_len (self : Vocab) : Z := Z.of_nat (length (idx_to_token self)).

(** The argument of [__getitem__]: a token, or a list or tuple of arguments. *)
#[warnings="-register-all"]
Inductive token_arg : Type :=
  | Token (t : string)
  | TokenSeq (ts : list token_arg).

#[warnings="-register-all"]
Inductive index_val : Type :=
  | Idx (i : Z)
  | IdxList (l : list index_val).

(** [self.token_to_idx.get(t, self.unk)] *)
Definition token_to_index (self : Vocab) (t : string) : Z :=
  default (unk self) (token_to_idx self !! t).

(** [Vocab.__getitem__] *)
Fixpoint Vocab_getitem (self : Vocab) (tokens : token_arg) : index_val :=
  match tokens with
  | Token t => Idx (token_to_index self t)
  | TokenSeq ts => IdxList (map (Vocab_getitem self) ts)
  end.

(** The argument of [to_tokens]: an index, or a list or tuple of indices. *)
Inductive index_arg : Type :=
  | Index (i : Z)
  | IndexSeq (l : list Z).

Inductive token_val : Type :=
  | Tok (t : string)
  | TokList (ts : list string).

(** The list comprehension of [to_tokens]: it stops at the first index that
    raises. *)
Fixpoint getitem_each (l : list string) (indices : list Z)
  : result (list string) :=
  match indices with
  | [] => Return []
  | i :: indices' =>
      match py_getitem l i with
      | Raise e => Raise e
      | Return t =>
          match getitem_each l indices' with
          | Raise e => Raise e
          | Return ts => Return (t :: ts)
          end
      end
  end.

(** [Vocab.to_tokens].  The second component is the vocabulary object after
    the call: the body reads [self.idx_to_token] and assigns nothing. *)
Definition Vocab_to_tokens (self : Vocab) (indices : index_arg)
  : result token_val * Vocab :=
  match indices with
  | Index i =>
      (match py_getitem (idx_to_token self) i with
       | Return t => Return (Tok t)
       | Raise e => Raise e
       end, self)
  | IndexSeq l =>
      (match getitem_each (idx_to_token self) l with
       | Return ts => Return (TokList ts)
       | Raise e => Raise e
       end, self)
  end.

(** ** Corpus encoder *)

(** [load_corpus_time_machine(max_tokens)]; [raw] is the content of the
    downloaded file as [f.readlines()] returns it.  Iterating over [None]
    (what [tokenize] returns for an unknown mode) raises [TypeError]. *)
Definition load_corpus_time_machine (raw : list string) (max_tokens : Z)
  : result (list index_val * Vocab) :=
  let lines := read_time_machine raw in
  match (tokenize lines "char").2 with
  | Raise e => Raise e
  | Return tokens =>
      let vocab := Vocab_init (Tokens2D <$> tokens) 0 None in
      match tokens with
      | None => Raise TypeError
      | Some tokens =>
          let corpus :=
            (λ token, Vocab_getitem vocab (Token token)) <$> concat tokens in
          let corpus :=
            if bool_decide (0 < max_tokens) then py_slice_to corpus max_tokens
            else corpus in
          Return (corpus, vocab)
      end
  end.


(** ** Notions used to state the properties *)

(** The whole loop [for token in uniq_tokens], from the empty list and the
    empty dictionary. *)
Definition fill (uniq_tokens : list string) : list string * gmap string Z :=
  foldl add_token ([], ∅) uniq_tokens.

(** The number of times [t] occurs in [l]. *)
Definition occurrences (l : list string) (t : string) : nat :=
  length (filter (λ x, x = t) l).

(** The position at which [t] is first met in [l] ([length l] if never). *)
Fixpoint first_pos (l : list string) (t : string) : nat :=
  match l with
  | [] => 0%nat
  | x :: l' => if bool_decide (x = t) then 0%nat else S (first_pos l' t)
  end.

(** [x] comes before [y] when its count is larger, or when the counts are
    equal and [x] came before [y] in the input (relation [P]). *)
Definition desc_then (P : relation (string * nat)) : relation (string * nat) :=
  λ x y, (y.2 < x.2)%nat ∨ (x.2 = y.2 ∧ P x y).

(** The order of the corpus tokens: by descending number of occurrences,
    then by first occurrence. *)
Definition freq_order (flat : list string) : relation string :=
  λ a b, (occurrences flat b < occurrences flat a)%nat
         ∨ (occurrences flat a = occurrences flat b
            ∧ (first_pos flat a < first_pos flat b)%nat).

(** The size in the words of the specification: one for the unknown token,
    the reserved tokens other than the unknown token, and the distinct corpus
    tokens that reach [min_freq] and are not in the reserved list. *)
Definition specified_size (tokens : option tokens_arg) (min_freq : Z)
    (reserved_tokens : option (list string)) : Z :=
  let flat := flatten (default (Tokens1D []) tokens) in
  let reserved := default [] reserved_tokens in
  1 + Z.of_nat (length (filter (λ t, t ≠ unk_token) reserved))
  + Z.of_nat (size (filter (λ t, min_freq ≤ Z.of_nat (occurrences flat t)
                                 ∧ t ∉ reserved)
                      (list_to_set flat : gset string))).

(** Letters and single spaces only, no two spaces in a row; [after_space]
    tells that the character before [s] is a space. *)
Fixpoint single_spaced (after_space : bool) (s : string) : bool :=
  match s with
  | EmptyString => true
  | String c s' =>
      if is_alpha c then single_spaced false s'
      else Ascii.eqb c space && negb after_space && single_spaced true s'
  end.

(** Words of letters separated by single spaces, ending in a word;
    [in_word] tells that the character before [s] belongs to a word. *)
Fixpoint letter_words (in_word : bool) (s : string) : bool :=
  match s with
  | EmptyString => in_word
  | String c s' =>
      if is_alpha c then letter_words true s'
      else Ascii.eqb c space && in_word && letter_words false s'
  end.

(** The same shape, with any non-whitespace character in the words. *)
Fixpoint spaced_words (in_word : bool) (s : string) : bool :=
  match s with
  | EmptyString => in_word
  | String c s' =>
      if isspace c then Ascii.eqb c space && in_word && spaced_words false s'
      else spaced_words true s'
  end.

(** [w] is not the empty string. *)
Definition nonempty (w : string) : bool :=
  match w with
  | EmptyString => false
  | String _ _ => true
  end.

(** ** Vocabularies used as examples *)

(** [Vocab(tokens=[['a', 'a', 'b']], min_freq=0)] *)
Definition vocab_aab : Vocab :=
  Vocab_init (Some (Tokens2D [["a"; "a"; "b"]])) 0 None.

(** [Vocab(tokens=['a'])] *)
Definition vocab_a : Vocab := Vocab_init (Some (Tokens1D ["a"])) 0 None.

(** [Vocab(reserved_tokens=['<unk>'])] *)
Definition vocab_reserved_unk : Vocab := Vocab_init None 0 (Some ["<unk>"]).

(** [Vocab(tokens=['a'], reserved_tokens=['a', 'a'])] *)
Definition vocab_reserved_twice : Vocab :=
  Vocab_init (Some (Tokens1D ["a"])) 0 (Some ["a"; "a"]).

(** ** Notions used to state the further properties *)

(** Every character of [s] satisfies [p]. *)
Fixpoint str_forallb (p : ascii → bool) (s : string) : bool :=
  match s with
  | EmptyString => true
  | String c s' => p c && str_forallb p s'
  end.

(** The character class [a-z]. *)
Definition is_lower (c : ascii) : bool :=
  ((97 <=? code c) && (code c <=? 122))%N.

(** The characters of a string, in order. *)
Definition chars (s : string) : list ascii := String.list_ascii_of_string s.

(** The 27 tokens that the characters of a normalised line can give. *)
Definition alphabet : list string :=
  ["a"; "b"; "c"; "d"; "e"; "f"; "g"; "h"; "i"; "j"; "k"; "l"; "m"; "n"; "o";
   "p"; "q"; "r"; "s"; "t"; "u"; "v"; "w"; "x"; "y"; "z"; " "].

(** ** Multi-head attention: the two transposes

    [transpose_qkv] and [transpose_output] of
    [multihead-attention.ipynb] only move elements around, so the element
    type is left open.  An [ndarray] is its shape and its elements in
    row-major order; a call that the array library rejects returns [None]. *)

Record ndarray (A : Type) : Type := mk_ndarray {
  shape : list nat;
  data : list A
}.
Arguments mk_ndarray {A} shape data.
Arguments shape {A} _.
Arguments data {A} _.

(** The number of elements of an array of shape [dims]. *)
Definition dims_size (dims : list nat) : nat := foldr Nat.mul 1%nat dims.

(** [X.reshape(dims)]: the elements stay in their order.  No dimension may
    be below -1; at most one may be -1, and it is then inferred from the
    size, which the other dimensions must divide (and their product must not
    be 0); without a -1 the product must be the size. *)
Definition nd_reshape {A : Type} (X : ndarray A) (dims : list Z)
  : option (ndarray A) :=
  let size := length (data X) in
  if bool_decide (Forall (λ d, -1 ≤ d) dims) then
    let known := dims_size (Z.to_nat <$> filter (λ d, d ≠ -1) dims) in
    match length (filter (λ d, d = -1) dims) with
    | 0%nat =>
        if bool_decide (known = size)
        then Some (mk_ndarray (Z.to_nat <$> dims) (data X))
        else None
    | 1%nat =>
        if bool_decide (known ≠ 0%nat ∧ (size `mod` known)%nat = 0%nat)
        then Some (mk_ndarray
                     ((λ d, if bool_decide (d = -1) then (size / known)%nat
                            else Z.to_nat d) <$> dims)
                     (data X))
        else None
    | _ => None
    end
  else None.

(** For the position [p] of an element in an array of shape [a, c, b, d]
    that is [Y = X.transpose(0, 2, 1, 3)]: the position in [X], of shape
    [a, b, c, d], of the same element, [Y[i, k, j, e] = X[i, j, k, e]]. *)
Definition source_0213 (b c d p : nat) : nat :=
  let e := (p `mod` d)%nat in
  let p1 := (p / d)%nat in
  let j := (p1 `mod` b)%nat in
  let p2 := (p1 / b)%nat in
  let k := (p2 `mod` c)%nat in
  let i := (p2 / c)%nat in
  (((i * b + j) * c + k) * d + e)%nat.

(** [X.transpose(0, 2, 1, 3)], for an array of four dimensions. *)
Definition transpose_0213 {A : Type} (X : ndarray A) : option (ndarray A) :=
  match shape X with
  | [a; b; c; d] =>
      Some (mk_ndarray [a; c; b; d]
              (seq 0 (a * c * b * d)
                 ≫= λ p, option_list (data X !! source_0213 b c d p)))
  | _ => None
  end.

(** [transpose_qkv(X, num_heads)] *)
Definition transpose_qkv {A : Type} (X : ndarray A) (num_heads : Z)
  : option (ndarray A) :=
  s0 ← shape X !! 0%nat;
  s1 ← shape X !! 1%nat;
  X ← nd_reshape X [Z.of_nat s0; Z.of_nat s1; num_heads; -1];
  X ← transpose_0213 X;
  s2 ← shape X !! 2%nat;
  s3 ← shape X !! 3%nat;
  nd_reshape X [-1; Z.of_nat s2; Z.of_nat s3].

(** [transpose_output(X, num_heads)] *)
Definition transpose_output {A : Type} (X : ndarray A) (num_heads : Z)
  : option (ndarray A) :=
  s1 ← shape X !! 1%nat;
  s2 ← shape X !! 2%nat;
  X ← nd_reshape X [-1; num_heads; Z.of_nat s1; Z.of_nat s2];
  X ← transpose_0213 X;
  s0 ← shape X !! 0%nat;
  s1 ← shape X !! 1%nat;
  nd_reshape X [Z.of_nat s0; Z.of_nat s1; -1].

(** * Properties *)

(** ** The scenarios of the specification and the outputs of the notebook *)

Example normalize_first_line :
  normalize_line "The Time Machine, by H. G. Wells [1898]"
  = "the time machine by h g wells".
Proof. reflexivity. Qed.

Example tokenize_words :
  tokenize ["the time machine"; ""] "word"
  = ([], Return (Some [["the"; "time"; "machine"]; []])).
Proof. reflexivity. Qed.

Example tokenize_chars :
  tokenize ["ab c"; ""] "char" = ([], Return (Some [["a"; "b"; " "; "c"]; []])).
Proof. reflexivity. Qed.

Example vocab_aab_scenario :
  Vocab_len vocab_aab = 3
  ∧ idx_to_token vocab_aab = ["<unk>"; "a"; "b"]
  ∧ Vocab_getitem vocab_aab (Token "a") = Idx 1
  ∧ Vocab_getitem vocab_aab (Token "z") = Idx 0.
Proof. split_and!; reflexivity. Qed.

Example vocab_below_min_freq :
  Vocab_len (Vocab_init (Some (Tokens2D [["a"; "b"]])) 2 None) = 1.
Proof. reflexivity. Qed.

(** Ties keep the order of first occurrence: [a] before [b], [c] before [d]. *)
Example token_freqs_ties :
  token_freqs
    (Vocab_init (Some (Tokens1D ["c"; "a"; "b"; "a"; "d"; "b"; "e"; "e"; "e"]))
       0 None)
  = [("e", 3%nat); ("a", 2%nat); ("b", 2%nat); ("c", 1%nat); ("d", 1%nat)].
Proof. reflexivity. Qed.

Example getitem_nested :
  Vocab_getitem vocab_aab
    (TokenSeq [TokenSeq [Token "a"; Token "b"]; TokenSeq [Token "z"]])
  = IdxList [IdxList [Idx 1; Idx 2]; IdxList [Idx 0]].
Proof. reflexivity. Qed.

Example to_tokens_list :
  (Vocab_to_tokens vocab_aab (IndexSeq [2; 1; 0])).1
  = Return (TokList ["b"; "a"; "<unk>"])
  ∧ (Vocab_to_tokens vocab_aab (IndexSeq [2; 3; 0])).1 = Raise IndexError.
Proof. split; reflexivity. Qed.

(** ** The loop that fills [idx_to_token] and [token_to_idx] *)

Lemma foldl_add_token_fst l st : (foldl add_token st l).1 = st.1 ++ l.
Proof.
  revert st. induction l as [|x l IH]; intros st; simpl.
  - by rewrite app_nil_r.
  - rewrite IH. simpl. by rewrite <- app_assoc.
Qed.

Lemma fill_fst l : (fill l).1 = l.
Proof. unfold fill. by rewrite foldl_add_token_fst. Qed.

Lemma fill_snoc l x :
  fill (l ++ [x]) = (l ++ [x], <[x := Z.of_nat (length l)]> (fill l).2).
Proof.
  unfold fill. rewrite foldl_app. simpl. unfold add_token.
  fold (fill l). rewrite fill_fst. f_equal. f_equal.
  rewrite length_app. simpl. lia.
Qed.

(** Every entry of the dictionary points at a position that holds its key. *)
Lemma fill_lookup_Some l t i :
  (fill l).2 !! t = Some i → 0 ≤ i ∧ l !! Z.to_nat i = Some t.
Proof.
  revert i. induction l as [|x l IH] using rev_ind; intros i.
  - unfold fill. simpl. by rewrite lookup_empty.
  - rewrite fill_snoc. simpl. destruct (decide (x = t)) as [->|Hne].
    + rewrite lookup_insert_eq. intros [= <-]. split; [lia|].
      rewrite Nat2Z.id. by rewrite list_lookup_middle.
    + rewrite lookup_insert_ne by done. intros Hi.
      destruct (IH _ Hi) as [H0 Hl]. split; [done|].
      by rewrite (lookup_app_l_Some _ _ _ _ Hl).
Qed.

(** The keys of the dictionary are the tokens of the list. *)
Lemma fill_lookup_is_Some l t : is_Some ((fill l).2 !! t) ↔ t ∈ l.
Proof.
  induction l as [|x l IH] using rev_ind.
  - unfold fill. simpl. rewrite lookup_empty. split.
    + by intros [? ?].
    + by intros ?%elem_of_nil.
  - rewrite fill_snoc. simpl. rewrite elem_of_app, list_elem_of_singleton.
    destruct (decide (x = t)) as [->|Hne].
    + rewrite lookup_insert_eq. split; eauto.
    + rewrite lookup_insert_ne by done. rewrite IH.
      split; [auto|]. intros [?|?]; [done|congruence].
Qed.

Lemma fill_lookup_None l t : (fill l).2 !! t = None ↔ t ∉ l.
Proof. rewrite <- fill_lookup_is_Some, eq_None_not_Some. done. Qed.

(** Without repeated tokens the dictionary is the inverse of the list. *)
Lemma fill_lookup_NoDup l t (n : nat) :
  NoDup l → l !! n = Some t → (fill l).2 !! t = Some (Z.of_nat n).
Proof.
  intros Hnd Hn.
  assert (is_Some ((fill l).2 !! t)) as [i Hi].
  { apply fill_lookup_is_Some. by eapply list_elem_of_lookup_2. }
  rewrite Hi. destruct (fill_lookup_Some _ _ _ Hi) as [H0 Hl].
  f_equal. pose proof (NoDup_lookup _ _ _ _ Hnd Hn Hl). lia.
Qed.

(** ** Counting: what [Counter] holds *)

Lemma occurrences_snoc l t k :
  occurrences (l ++ [t]) k
  = (occurrences l k + (if bool_decide (t = k) then 1 else 0))%nat.
Proof.
  unfold occurrences. rewrite filter_app, length_app. f_equal.
  rewrite filter_cons, filter_nil.
  case_bool_decide; by case_decide.
Qed.

Lemma occurrences_not_elem l t : t ∉ l → occurrences l t = 0%nat.
Proof.
  intros Hn. unfold occurrences.
  induction l as [|x l IH]; [done|].
  apply not_elem_of_cons in Hn as [Hne Hn].
  rewrite filter_cons. case_decide; [congruence|]. by apply IH.
Qed.

Lemma occurrences_elem l t : t ∈ l → (0 < occurrences l t)%nat.
Proof.
  unfold occurrences. induction 1 as [x l|x y l _ IH].
  - rewrite filter_cons. case_decide; [simpl; lia|done].
  - rewrite filter_cons. case_decide; simpl; lia.
Qed.

Lemma first_pos_app_elem l k t : t ∈ l → first_pos (l ++ k) t = first_pos l t.
Proof.
  induction 1 as [x l|x y l _ IH]; simpl.
  - by rewrite bool_decide_eq_true_2.
  - case_bool_decide; [done|]. by rewrite IH.
Qed.

Lemma first_pos_app_not_elem l k t :
  t ∉ l → first_pos (l ++ k) t = (length l + first_pos k t)%nat.
Proof.
  induction l as [|x l IH]; intros Hn; simpl; [done|].
  apply not_elem_of_cons in Hn as [Hne Hn].
  rewrite bool_decide_eq_false_2 by congruence. by rewrite IH.
Qed.

Lemma first_pos_lt l t : t ∈ l → (first_pos l t < length l)%nat.
Proof.
  induction 1 as [x l|x y l _ IH]; simpl.
  - rewrite bool_decide_eq_true_2 by done. lia.
  - case_bool_decide; lia.
Qed.

Lemma Counter_snoc l t : Counter (l ++ [t]) = counter_add (Counter l) t.
Proof. unfold Counter. by rewrite foldl_app. Qed.

Lemma counter_add_keys c t :
  (counter_add c t).*1 = if decide (t ∈ c.*1) then c.*1 else c.*1 ++ [t].
Proof.
  induction c as [|[k n] c IH]; csimpl.
  - done.
  - case_bool_decide as Hk; csimpl.
    + subst k. rewrite decide_True; [done|]. apply list_elem_of_here.
    + rewrite IH. destruct (decide (t ∈ c.*1)) as [Hin|Hin].
      * rewrite decide_True; [done|]. by apply list_elem_of_further.
      * rewrite decide_False; [done|].
        rewrite not_elem_of_cons. split; [congruence|done].
Qed.

(** The keys of the counter are the tokens of the list. *)
Lemma Counter_keys_elem l t : t ∈ (Counter l).*1 ↔ t ∈ l.
Proof.
  induction l as [|x l IH] using rev_ind.
  - done.
  - rewrite Counter_snoc, counter_add_keys, elem_of_app, list_elem_of_singleton.
    case_decide as Hin.
    + rewrite IH. split; [auto|]. intros [?| ->]; [done|]. by apply IH.
    + rewrite elem_of_app, list_elem_of_singleton, IH. done.
Qed.

(** No key is held twice. *)
Lemma Counter_keys_NoDup l : NoDup (Counter l).*1.
Proof.
  induction l as [|x l IH] using rev_ind.
  - constructor.
  - rewrite Counter_snoc, counter_add_keys. case_decide as Hin; [done|].
    apply NoDup_app. split_and!; [done| |apply NoDup_singleton].
    intros y Hy ->%list_elem_of_singleton. done.
Qed.

Lemma StronglySorted_impl_elem {A} (R1 R2 : relation A) (l : list A) :
  (∀ x y, x ∈ l → y ∈ l → R1 x y → R2 x y) →
  StronglySorted R1 l → StronglySorted R2 l.
Proof.
  intros Himpl Hs. induction Hs as [|x l Hs IH Hx]; constructor.
  - apply IH. intros a b Ha Hb. apply Himpl; by apply list_elem_of_further.
  - rewrite Forall_forall in Hx |- *. intros y Hy.
    apply Himpl; [apply list_elem_of_here|by apply list_elem_of_further|auto].
Qed.

Lemma StronglySorted_filter {A} (R : relation A) (P : A → Prop)
    `{∀ x, Decision (P x)} (l : list A) :
  StronglySorted R l → StronglySorted R (filter P l).
Proof.
  induction 1 as [|x l Hs IH Hx]; [constructor|].
  rewrite filter_cons. case_decide; [|done].
  constructor; [done|]. rewrite Forall_forall in Hx |- *.
  intros y [_ Hy]%list_elem_of_filter. auto.
Qed.

Lemma StronglySorted_lookup {A} (R : relation A) (l : list A) i j x y :
  StronglySorted R l → (i < j)%nat → l !! i = Some x → l !! j = Some y → R x y.
Proof.
  intros Hs. revert i j. induction Hs as [|a l Hs IH Ha]; intros i j Hij Hi Hj.
  - done.
  - destruct j as [|j]; [lia|]. simpl in Hj. destruct i as [|i]; simpl in Hi.
    + injection Hi as ->. rewrite Forall_forall in Ha.
      apply Ha. by eapply list_elem_of_lookup_2.
    + apply (IH i j); [lia|done|done].
Qed.

(** The keys are held in the order in which they were first met. *)
Lemma Counter_keys_order l :
  StronglySorted (λ a b, first_pos l a < first_pos l b)%nat (Counter l).*1.
Proof.
  induction l as [|x l IH] using rev_ind.
  - constructor.
  - assert (StronglySorted
              (λ a b, first_pos (l ++ [x]) a < first_pos (l ++ [x]) b)%nat
              (Counter l).*1) as IH'.
    { eapply StronglySorted_impl_elem; [|exact IH]. simpl.
      intros a b Ha Hb.
      apply (proj1 (Counter_keys_elem _ _)) in Ha, Hb.
      by rewrite !first_pos_app_elem. }
    rewrite Counter_snoc, counter_add_keys. case_decide as Hin; [done|].
    apply StronglySorted_app. split_and!; [|done|repeat constructor].
    intros a b Ha ->%list_elem_of_singleton.
    apply (proj1 (Counter_keys_elem _ _)) in Ha.
    rewrite Counter_keys_elem in Hin.
    rewrite first_pos_app_elem by done.
    rewrite first_pos_app_not_elem by done.
    pose proof (first_pos_lt _ _ Ha). lia.
Qed.

Lemma counter_add_values c l t :
  NoDup c.*1 →
  (∀ e, e ∈ c → e.2 = occurrences l e.1) →
  (t ∉ c.*1 → t ∉ l) →
  ∀ e, e ∈ counter_add c t → e.2 = occurrences (l ++ [t]) e.1.
Proof.
  induction c as [|[k n] c IH]; simpl; intros Hnd Hc Ht e He.
  - apply list_elem_of_singleton in He as ->. simpl.
    rewrite occurrences_snoc, bool_decide_eq_true_2 by done.
    rewrite occurrences_not_elem; [done|]. apply Ht, not_elem_of_nil.
  - apply NoDup_cons in Hnd as [Hk Hnd].
    case_bool_decide as Hkt.
    + subst k. apply elem_of_cons in He as [->|He]; simpl.
      * rewrite occurrences_snoc, bool_decide_eq_true_2 by done.
        pose proof (Hc (t, n) (list_elem_of_here _ _)) as Hn.
        simpl in Hn. lia.
      * rewrite occurrences_snoc, bool_decide_eq_false_2.
        -- rewrite Nat.add_0_r. apply Hc. by apply list_elem_of_further.
        -- intros ->. apply Hk. by apply list_elem_of_fmap_2.
    + apply elem_of_cons in He as [->|He]; simpl.
      * rewrite occurrences_snoc, bool_decide_eq_false_2 by congruence.
        rewrite Nat.add_0_r. apply (Hc (k, n)), list_elem_of_here.
      * apply IH; [done| |  |done].
        -- intros e' He'. apply Hc. by apply list_elem_of_further.
        -- intros Hn. apply Ht. rewrite not_elem_of_cons. split; [congruence|done].
Qed.

(** Every key is held with the number of its occurrences. *)
Lemma Counter_values l e : e ∈ Counter l → e.2 = occurrences l e.1.
Proof.
  revert e. induction l as [|x l IH] using rev_ind; intros e.
  - by intros ?%elem_of_nil.
  - rewrite Counter_snoc. apply counter_add_values.
    + apply Counter_keys_NoDup.
    + exact IH.
    + by rewrite Counter_keys_elem.
Qed.

(** ** Sorting: what [sorted(..., reverse=True)] returns *)

Lemma insert_desc_Permutation x l : insert_desc x l ≡ₚ x :: l.
Proof.
  induction l as [|y l IH]; simpl; [done|].
  case_bool_decide; [|done]. rewrite IH. apply Permutation_swap.
Qed.

Lemma sorted_desc_Permutation l : sorted_desc l ≡ₚ l.
Proof.
  induction l as [|x l IH]; simpl; [done|].
  by rewrite insert_desc_Permutation, IH.
Qed.

Lemma insert_desc_sorted P x l :
  Forall (P x) l →
  StronglySorted (desc_then P) l →
  StronglySorted (desc_then P) (insert_desc x l).
Proof.
  intros Hx Hs. induction Hs as [|y l Hs IH Hy]; simpl.
  - repeat constructor.
  - apply Forall_cons in Hx as [Hxy Hx]. case_bool_decide as Hlt.
    + constructor; [by apply IH|].
      rewrite insert_desc_Permutation. constructor; [by left|done].
    + constructor; [by constructor|].
      assert (desc_then P x y) as Hd.
      { destruct (decide (y.2 = x.2)) as [Heq|Hne]; [by right|left; lia]. }
      constructor; [done|].
      rewrite Forall_forall in Hx, Hy |- *. intros z Hz.
      destruct (Hy z Hz) as [Hzy|[Hzy _]].
      * left. lia.
      * destruct (decide (z.2 = x.2)) as [Heq|Hne]; [|left; lia].
        right. split; [done|]. by apply Hx.
Qed.

(** The sort is stable: a list whose entries are in [P]-order comes out in
    descending count, with entries of equal count still in [P]-order. *)
Lemma sorted_desc_stable P l :
  StronglySorted P l → StronglySorted (desc_then P) (sorted_desc l).
Proof.
  induction 1 as [|x l Hs IH Hx]; simpl; [constructor|].
  apply insert_desc_sorted; [|done]. by rewrite sorted_desc_Permutation.
Qed.

Lemma StronglySorted_fmap_inv {A B} (f : A → B) (R : relation B) (l : list A) :
  StronglySorted R (f <$> l) → StronglySorted (λ x y, R (f x) (f y)) l.
Proof.
  induction l as [|x l IH]; csimpl; intros Hs; [constructor|].
  apply StronglySorted_cons in Hs as [Hx Hs].
  constructor; [by apply IH|]. by rewrite Forall_fmap in Hx.
Qed.

(** ** What [__init__] builds *)

Section vocab_init.
Variable tokens : option tokens_arg.
Variable min_freq : Z.
Variable reserved_tokens : option (list string).

Local Abbreviation flat := (flatten (default (Tokens1D []) tokens)).
Local Abbreviation reserved := (default [] reserved_tokens).
Local Abbreviation v := (Vocab_init tokens min_freq reserved_tokens).

Lemma token_freqs_init : token_freqs v = sorted_desc (Counter flat).
Proof. done. Qed.

Lemma idx_to_token_init :
  idx_to_token v
  = unk_token :: reserved
    ++ corpus_tokens (token_freqs v) min_freq (unk_token :: reserved).
Proof. unfold v, Vocab_init. simpl. by rewrite foldl_add_token_fst. Qed.

Lemma token_to_idx_init : token_to_idx v = (fill (idx_to_token v)).2.
Proof.
  rewrite idx_to_token_init. unfold v, Vocab_init, fill. simpl. done.
Qed.

Lemma unk_init : unk v = 0.
Proof. done. Qed.

Lemma token_freqs_values e :
  e ∈ token_freqs v → e.2 = occurrences flat e.1.
Proof.
  rewrite token_freqs_init, sorted_desc_Permutation. apply Counter_values.
Qed.

Lemma token_freqs_keys_elem t : t ∈ (token_freqs v).*1 ↔ t ∈ flat.
Proof.
  rewrite token_freqs_init, sorted_desc_Permutation. apply Counter_keys_elem.
Qed.

Lemma token_freqs_keys_NoDup : NoDup (token_freqs v).*1.
Proof.
  rewrite token_freqs_init, sorted_desc_Permutation. apply Counter_keys_NoDup.
Qed.

Lemma token_freqs_sorted :
  StronglySorted (λ x y, freq_order flat x.1 y.1) (token_freqs v).
Proof.
  eapply StronglySorted_impl_elem;
    [|apply (sorted_desc_stable
               (λ x y, first_pos flat x.1 < first_pos flat y.1)%nat);
      apply (StronglySorted_fmap_inv fst
               (λ a b, first_pos flat a < first_pos flat b)%nat),
            Counter_keys_order].
  intros x y Hx%token_freqs_values Hy%token_freqs_values.
  unfold desc_then, freq_order. rewrite Hx, Hy. done.
Qed.

Lemma corpus_tokens_elem uniq t :
  t ∈ corpus_tokens (token_freqs v) min_freq uniq
  ↔ t ∈ flat ∧ min_freq ≤ Z.of_nat (occurrences flat t) ∧ t ∉ uniq.
Proof.
  unfold corpus_tokens. rewrite list_elem_of_fmap. split.
  - intros [[k n] [-> [[Hm Hu] He]%list_elem_of_filter]]. simpl in *.
    pose proof (token_freqs_values _ He) as Hn. simpl in Hn. subst n.
    split_and!; [|done|done].
    apply token_freqs_keys_elem. by apply (list_elem_of_fmap_2 fst) in He.
  - intros (Hf & Hm & Hu).
    apply token_freqs_keys_elem, list_elem_of_fmap in Hf as [e [-> He]].
    exists e. split; [done|]. apply list_elem_of_filter.
    by rewrite (token_freqs_values _ He).
Qed.

Lemma corpus_tokens_NoDup uniq :
  NoDup (corpus_tokens (token_freqs v) min_freq uniq).
Proof.
  unfold corpus_tokens.
  pose proof token_freqs_keys_NoDup as Hnd. revert Hnd.
  generalize (token_freqs v). intros l. induction l as [|e l IH]; csimpl.
  - constructor.
  - intros [He Hnd]%NoDup_cons. rewrite filter_cons. case_decide; csimpl.
    + constructor; [|by apply IH].
      intros [e' [Heq [_ He']%list_elem_of_filter]]%list_elem_of_fmap.
      apply He. rewrite Heq. by apply list_elem_of_fmap_2.
    + by apply IH.
Qed.

Lemma corpus_tokens_sorted uniq :
  StronglySorted (freq_order flat)
    (corpus_tokens (token_freqs v) min_freq uniq).
Proof.
  unfold corpus_tokens.
  apply (StronglySorted_fmap fst (λ x y, freq_order flat x.1 y.1)); [done|].
  apply StronglySorted_filter, token_freqs_sorted.
Qed.
End vocab_init.

(** ** Tokenizer: unknown modes *)

(** C3, as stated, fails: for the mode ['sentence'] the call returns [None]
    after printing its message; nothing is raised. *)
Lemma tokenize_unknown_mode_returns :
  tokenize ["the time machine"] "sentence"
  = ([unknown_token_type_msg +:+ "sentence"], Return None)
  ∧ raises (tokenize ["the time machine"] "sentence").2 = false.
Proof. split; reflexivity. Qed.

(** C3 (amended): for every mode other than ['word'] and ['char'] the
    tokenizer prints one line, the fixed message followed by the mode, and
    returns [None] without raising; for ['word'] and ['char'] it prints
    nothing and returns the per-line token lists. *)
Theorem tokenize_modes (lines : list string) (token : string) :
  (token ≠ "word" → token ≠ "char" →
     tokenize lines token = ([unknown_token_type_msg +:+ token], Return None))
  ∧ (token = "word" → tokenize lines token = ([], Return (Some (split <$> lines))))
  ∧ (token = "char" →
       tokenize lines token = ([], Return (Some (list_of_str <$> lines)))).
Proof.
  unfold tokenize. split_and!.
  - intros Hw Hc. by rewrite !bool_decide_eq_false_2.
  - by intros ->.
  - by intros ->.
Qed.

Lemma tokenize_modes_witness :
  tokenize ["ab"] "line" = ([unknown_token_type_msg +:+ "line"], Return None)
  ∧ tokenize ["a b"] "word" = ([], Return (Some [["a"; "b"]]))
  ∧ tokenize ["ab"] "char" = ([], Return (Some [["a"; "b"]])).
Proof.
  split_and!.
  - apply (proj1 (tokenize_modes ["ab"] "line")); by intros [=].
  - apply (proj1 (proj2 (tokenize_modes ["a b"] "word"))). reflexivity.
  - apply (proj2 (proj2 (tokenize_modes ["ab"] "char"))). reflexivity.
Defined.

(** ** Reverse lookup *)

Lemma py_getitem_Return {A} (l : list A) (i : Z) :
  - Z.of_nat (length l) ≤ i < Z.of_nat (length l) →
  ∃ x, py_getitem l i = Return x
       ∧ l !! Z.to_nat (if bool_decide (i < 0) then i + Z.of_nat (length l) else i)
         = Some x.
Proof.
  intros Hi. unfold py_getitem.
  set (j := if bool_decide (i < 0) then i + Z.of_nat (length l) else i).
  assert (0 ≤ j < Z.of_nat (length l)) as Hj.
  { unfold j. case_bool_decide; lia. }
  rewrite bool_decide_eq_true_2 by lia.
  destruct (lookup_lt_is_Some_2 l (Z.to_nat j)) as [x Hx]; [lia|].
  rewrite Hx. eauto.
Qed.

Lemma py_getitem_Raise {A} (l : list A) (i : Z) :
  i < - Z.of_nat (length l) ∨ Z.of_nat (length l) ≤ i →
  py_getitem l i = Raise IndexError.
Proof.
  intros Hi. unfold py_getitem.
  destruct (bool_decide (i < 0)) eqn:Hneg.
  - apply bool_decide_eq_true in Hneg. rewrite bool_decide_eq_false_2; [done|lia].
  - apply bool_decide_eq_false in Hneg. case_bool_decide; [|done].
    rewrite lookup_ge_None_2; [done|lia].
Qed.

Lemma py_getitem_nonneg {A} (l : list A) (i : Z) (x : A) :
  0 ≤ i → l !! Z.to_nat i = Some x → py_getitem l i = Return x.
Proof.
  intros H0 Hl. unfold py_getitem.
  rewrite (bool_decide_eq_false_2 (i < 0)) by lia.
  rewrite bool_decide_eq_true_2 by lia. by rewrite Hl.
Qed.

Lemma to_tokens_Index (v : Vocab) (i : Z) :
  (Vocab_to_tokens v (Index i)).1
  = match py_getitem (idx_to_token v) i with
    | Return t => Return (Tok t)
    | Raise e => Raise e
    end.
Proof. done. Qed.

(** C4, as stated, fails: the index [-1] lies outside [0, size()) and the
    lookup returns the last token instead of raising. *)
Lemma to_tokens_negative_index :
  Vocab_len vocab_a = 2
  ∧ (Vocab_to_tokens vocab_a (Index (-1))).1 = Return (Tok "a")
  ∧ raises (Vocab_to_tokens vocab_a (Index (-1))).1 = false.
Proof. split_and!; reflexivity. Qed.

(** C4 (amended): reverse lookup of one integer index [i] raises, and then
    raises [IndexError], if and only if [i] is outside [-size(), size());
    for [i] in [0, size()) it returns the token at index [i], for [i] in
    [-size(), 0) the token at index [size() + i]; and the vocabulary after
    the call, failing or not, is the vocabulary before it. *)
Theorem to_tokens_index (v : Vocab) (i : Z) :
  (raises (Vocab_to_tokens v (Index i)).1 = true
     ↔ i < - Vocab_len v ∨ Vocab_len v ≤ i)
  ∧ (raises (Vocab_to_tokens v (Index i)).1 = true →
       (Vocab_to_tokens v (Index i)).1 = Raise IndexError)
  ∧ (0 ≤ i < Vocab_len v →
       ∃ t, idx_to_token v !! Z.to_nat i = Some t
            ∧ (Vocab_to_tokens v (Index i)).1 = Return (Tok t))
  ∧ (- Vocab_len v ≤ i < 0 →
       ∃ t, idx_to_token v !! Z.to_nat (Vocab_len v + i) = Some t
            ∧ (Vocab_to_tokens v (Index i)).1 = Return (Tok t))
  ∧ (Vocab_to_tokens v (Index i)).2 = v.
Proof.
  unfold Vocab_len. simpl.
  destruct (decide (- Z.of_nat (length (idx_to_token v)) ≤ i
                    < Z.of_nat (length (idx_to_token v)))) as [Hin|Hout].
  - destruct (py_getitem_Return _ _ Hin) as (t & Hr & Ht). rewrite Hr. simpl.
    split_and!; [split; [done|lia]|done| | |done].
    + intros Hi. exists t. split; [|done].
      by rewrite bool_decide_eq_false_2 in Ht by lia.
    + intros Hi. exists t. split; [|done].
      rewrite bool_decide_eq_true_2 in Ht by lia.
      by rewrite Z.add_comm.
  - rewrite py_getitem_Raise by lia. simpl.
    split_and!; [split; [lia|done]|done|lia|lia|done].
Qed.

Lemma to_tokens_index_witness :
  (Vocab_to_tokens vocab_aab (Index 3)).1 = Raise IndexError
  ∧ (∃ t, idx_to_token vocab_aab !! Z.to_nat 1 = Some t
          ∧ (Vocab_to_tokens vocab_aab (Index 1)).1 = Return (Tok t))
  ∧ (∃ t, idx_to_token vocab_aab !! Z.to_nat (Vocab_len vocab_aab + -1) = Some t
          ∧ (Vocab_to_tokens vocab_aab (Index (-1))).1 = Return (Tok t)).
Proof.
  split_and!.
  - apply (proj1 (proj2 (to_tokens_index vocab_aab 3))). reflexivity.
  - apply (proj1 (proj2 (proj2 (to_tokens_index vocab_aab 1)))). by vm_compute.
  - apply (proj1 (proj2 (proj2 (proj2 (to_tokens_index vocab_aab (-1)))))).
    by vm_compute.
Defined.

(** ** Forward lookup over sequences *)

(** C10: looking up a sequence returns the list of the lookups of its
    elements, at every depth; in particular a list of line-token lists gives
    the list of the lines' index lists, each leaf being the single-token
    lookup. *)
Theorem getitem_distributes (v : Vocab) :
  (∀ xs : list token_arg,
     Vocab_getitem v (TokenSeq xs) = IdxList (Vocab_getitem v <$> xs))
  ∧ (∀ ts : list string,
       Vocab_getitem v (TokenSeq (Token <$> ts))
       = IdxList ((λ t, Idx (token_to_index v t)) <$> ts))
  ∧ (∀ lines : list (list string),
       Vocab_getitem v (TokenSeq ((λ line, TokenSeq (Token <$> line)) <$> lines))
       = IdxList ((λ line, IdxList ((λ t, Idx (token_to_index v t)) <$> line))
                    <$> lines)).
Proof.
  assert (∀ ts : list string,
            Vocab_getitem v (TokenSeq (Token <$> ts))
            = IdxList ((λ t, Idx (token_to_index v t)) <$> ts)) as Hflat.
  { intros ts. simpl. f_equal. induction ts as [|t ts IH]; csimpl; [done|].
    by rewrite <- IH. }
  split_and!; [done|done|].
  intros lines. simpl. f_equal.
  induction lines as [|line lines IH]; csimpl; [done|].
  f_equal; [|exact IH]. apply (Hflat line).
Qed.

(** ** The built vocabulary *)

Lemma Vocab_len_init tokens min_freq reserved_tokens :
  Vocab_len (Vocab_init tokens min_freq reserved_tokens)
  = 1 + Z.of_nat (length (default [] reserved_tokens))
    + Z.of_nat (length (corpus_tokens
                          (token_freqs (Vocab_init tokens min_freq reserved_tokens))
                          min_freq (unk_token :: default [] reserved_tokens))).
Proof.
  unfold Vocab_len. rewrite idx_to_token_init. simpl. rewrite length_app. lia.
Qed.

Lemma length_filter_impl {A} (P Q : A → Prop)
    `{∀ x, Decision (P x)} `{∀ x, Decision (Q x)} (l : list A) :
  (∀ x, P x → Q x) → (length (filter P l) ≤ length (filter Q l))%nat.
Proof.
  intros HPQ. induction l as [|x l IH]; [done|].
  rewrite !filter_cons. destruct (decide (P x)) as [HP|HP].
  - rewrite decide_True by auto. simpl. lia.
  - case_decide; simpl; lia.
Qed.

(** C8: with the tokens and the reserved list fixed, the vocabulary built
    with the larger [min_freq] is not larger (for all integers [m1 <= m2],
    the non-negative ones among them). *)
Theorem size_antitone_in_min_freq tokens reserved_tokens (m1 m2 : Z) :
  m1 ≤ m2 →
  Vocab_len (Vocab_init tokens m2 reserved_tokens)
  ≤ Vocab_len (Vocab_init tokens m1 reserved_tokens).
Proof.
  intros Hm. rewrite !Vocab_len_init, !token_freqs_init.
  unfold corpus_tokens. rewrite !length_fmap.
  apply Z.add_le_mono_l, Nat2Z.inj_le, length_filter_impl.
  intros x [Hx Hu]. split; [lia|done].
Qed.

Lemma size_antitone_in_min_freq_witness :
  Vocab_len (Vocab_init (Some (Tokens2D [["a"; "b"; "a"]])) 2 (Some ["<pad>"]))
  ≤ Vocab_len (Vocab_init (Some (Tokens2D [["a"; "b"; "a"]])) 1 (Some ["<pad>"])).
Proof. apply size_antitone_in_min_freq. lia. Defined.

(** C6: for every built vocabulary and every token [t], looking [t] up and
    then looking the resulting index up in reverse returns [t] when [t] has
    an entry in [token_to_idx], and the unknown token otherwise. *)
Theorem lookup_round_trip tokens min_freq reserved_tokens (t : string) :
  let v := Vocab_init tokens min_freq reserved_tokens in
  Vocab_getitem v (Token t) = Idx (token_to_index v t)
  ∧ (is_Some (token_to_idx v !! t) →
       (Vocab_to_tokens v (Index (token_to_index v t))).1 = Return (Tok t))
  ∧ (token_to_idx v !! t = None →
       (Vocab_to_tokens v (Index (token_to_index v t))).1
       = Return (Tok unk_token)).
Proof.
  intros v. split; [done|]. unfold token_to_index. split.
  - intros [i Hi]. rewrite Hi, to_tokens_Index.
    change (default (unk v) (Some i)) with i.
    unfold v in Hi. rewrite token_to_idx_init in Hi.
    apply fill_lookup_Some in Hi as [H0 Hl]. fold v in Hl.
    by rewrite (py_getitem_nonneg _ _ _ H0 Hl).
  - intros ->. rewrite to_tokens_Index.
    change (default (unk v) None) with 0.
    rewrite (py_getitem_nonneg _ 0 unk_token); [done|done|].
    unfold v. by rewrite idx_to_token_init.
Qed.

Lemma lookup_round_trip_witness :
  (Vocab_to_tokens vocab_aab (Index (token_to_index vocab_aab "b"))).1
  = Return (Tok "b")
  ∧ (Vocab_to_tokens vocab_aab (Index (token_to_index vocab_aab "z"))).1
    = Return (Tok unk_token).
Proof.
  split.
  - apply (proj1 (proj2 (lookup_round_trip
      (Some (Tokens2D [["a"; "a"; "b"]])) 0 None "b"))).
    by exists 2.
  - apply (proj2 (proj2 (lookup_round_trip
      (Some (Tokens2D [["a"; "a"; "b"]])) 0 None "z"))).
    reflexivity.
Defined.

Lemma idx_to_token_NoDup tokens min_freq reserved_tokens :
  NoDup (unk_token :: default [] reserved_tokens) →
  NoDup (idx_to_token (Vocab_init tokens min_freq reserved_tokens)).
Proof.
  intros Hnd. rewrite idx_to_token_init.
  change (NoDup ((unk_token :: default [] reserved_tokens)
                 ++ corpus_tokens
                      (token_freqs (Vocab_init tokens min_freq reserved_tokens))
                      min_freq (unk_token :: default [] reserved_tokens))).
  apply NoDup_app. split_and!; [done| |apply corpus_tokens_NoDup].
  intros x Hx Hc. apply corpus_tokens_elem in Hc as (_ & _ & Hn). done.
Qed.

(** C1, as stated, fails: with the unknown token among the reserved tokens,
    the indices 0 and 1 both hold it, and its dictionary entry is 1, so the
    two mappings are not inverse to each other (and the unknown token itself
    does not resolve to the unknown index 0). *)
Lemma reserved_unk_not_bijective :
  idx_to_token vocab_reserved_unk !! 0%nat = Some "<unk>"
  ∧ idx_to_token vocab_reserved_unk !! 1%nat = Some "<unk>"
  ∧ token_to_idx vocab_reserved_unk !! "<unk>" = Some 1
  ∧ Vocab_getitem vocab_reserved_unk (Token "<unk>") = Idx 1.
Proof. split_and!; reflexivity. Qed.

(** C1 (amended): for every vocabulary built with reserved tokens that are
    pairwise distinct and differ from the unknown token, [token_to_idx] and
    [idx_to_token] are inverse to each other (so no token has two indices and
    no two indices hold the same token), and forward lookup is total: every
    string resolves to an index below [size()], a string outside the
    vocabulary to the unknown index 0, which holds the unknown token. *)
Theorem vocab_bijective tokens min_freq reserved_tokens :
  NoDup (unk_token :: default [] reserved_tokens) →
  let v := Vocab_init tokens min_freq reserved_tokens in
  (∀ t i, token_to_idx v !! t = Some i
          ↔ 0 ≤ i ∧ idx_to_token v !! Z.to_nat i = Some t)
  ∧ (∀ t1 t2 i, token_to_idx v !! t1 = Some i →
                token_to_idx v !! t2 = Some i → t1 = t2)
  ∧ (∀ (i j : nat) t, idx_to_token v !! i = Some t →
                      idx_to_token v !! j = Some t → i = j)
  ∧ (∀ t, ∃ i, Vocab_getitem v (Token t) = Idx i ∧ 0 ≤ i < Vocab_len v)
  ∧ (∀ t, t ∉ idx_to_token v → Vocab_getitem v (Token t) = Idx 0)
  ∧ idx_to_token v !! 0%nat = Some unk_token
  ∧ token_to_idx v !! unk_token = Some 0.
Proof.
  intros Hnd v.
  pose proof (idx_to_token_NoDup tokens min_freq _ Hnd) as Hv. fold v in Hv.
  assert (idx_to_token v !! 0%nat = Some unk_token) as H0.
  { unfold v. by rewrite idx_to_token_init. }
  assert (∀ t i, token_to_idx v !! t = Some i
                 ↔ 0 ≤ i ∧ idx_to_token v !! Z.to_nat i = Some t) as Hinv.
  { intros t i. unfold v. rewrite token_to_idx_init. fold v. split.
    - apply fill_lookup_Some.
    - intros [Hi Hl]. rewrite (fill_lookup_NoDup _ _ _ Hv Hl). f_equal. lia. }
  split_and!; [done| | | | |done|].
  - intros t1 t2 i [_ H1]%Hinv [_ H2]%Hinv. congruence.
  - intros i j t Hi Hj. by eapply NoDup_lookup.
  - intros t. change (Vocab_getitem v (Token t)) with (Idx (token_to_index v t)).
    unfold token_to_index, Vocab_len.
    destruct (token_to_idx v !! t) as [i|] eqn:Hi.
    + apply Hinv in Hi as [Hi Hl]. apply lookup_lt_Some in Hl.
      exists i. split; [done|lia].
    + exists 0. split; [done|]. apply lookup_lt_Some in H0. lia.
  - intros t Ht. change (Vocab_getitem v (Token t)) with (Idx (token_to_index v t)).
    unfold token_to_index, v. rewrite token_to_idx_init. fold v.
    by rewrite (proj2 (fill_lookup_None _ _) Ht).
  - apply Hinv. by split.
Qed.

Lemma vocab_bijective_witness :
  NoDup (unk_token :: default [] (Some ["<pad>"]))
  ∧ ∀ t i,
      token_to_idx
        (Vocab_init (Some (Tokens2D [["a"; "a"; "b"]])) 0 (Some ["<pad>"])) !! t
      = Some i
      ↔ 0 ≤ i
        ∧ idx_to_token
            (Vocab_init (Some (Tokens2D [["a"; "a"; "b"]])) 0 (Some ["<pad>"]))
          !! Z.to_nat i = Some t.
Proof.
  assert (NoDup (unk_token :: default [] (Some ["<pad>"]))) as Hnd.
  { by apply (bool_decide_unpack _). }
  pose proof (vocab_bijective (Some (Tokens2D [["a"; "a"; "b"]])) 0
                (Some ["<pad>"]) Hnd) as H.
  split; [exact Hnd|apply H].
Defined.

(** C2, as stated, fails: a token that is in the corpus and twice in the
    reserved list is placed twice, and its dictionary entry is the second of
    the two positions. *)
Lemma reserved_twice_placed_twice :
  idx_to_token vocab_reserved_twice = ["<unk>"; "a"; "a"]
  ∧ occurrences (idx_to_token vocab_reserved_twice) "a" = 2%nat
  ∧ token_to_idx vocab_reserved_twice !! "a" = Some 2.
Proof. split_and!; reflexivity. Qed.

(** C2 (amended): for every token collection, [min_freq] and reserved list,
    [idx_to_token] is the unknown token, then the reserved tokens in the
    order supplied, then the corpus part: the distinct corpus tokens that
    occur at least [min_freq] times and are neither the unknown token nor
    reserved, by descending number of occurrences and, among equals, in the
    order in which they are first met.  A token of the reserved list gets no
    position from the corpus; and when the reserved tokens are pairwise
    distinct and differ from the unknown token, no token is placed twice. *)
Theorem index_order tokens min_freq reserved_tokens :
  let flat := flatten (default (Tokens1D []) tokens) in
  let reserved := default [] reserved_tokens in
  let v := Vocab_init tokens min_freq reserved_tokens in
  ∃ corpus_part,
    idx_to_token v = unk_token :: reserved ++ corpus_part
    ∧ NoDup corpus_part
    ∧ (∀ t, t ∈ corpus_part
            ↔ t ∈ flat ∧ min_freq ≤ Z.of_nat (occurrences flat t)
              ∧ t ≠ unk_token ∧ t ∉ reserved)
    ∧ (∀ (i j : nat) a b, (i < j)%nat →
         corpus_part !! i = Some a → corpus_part !! j = Some b →
         (occurrences flat b < occurrences flat a)%nat
         ∨ (occurrences flat a = occurrences flat b
            ∧ (first_pos flat a < first_pos flat b)%nat))
    ∧ (NoDup (unk_token :: reserved) → NoDup (idx_to_token v)).
Proof.
  intros flat reserved v.
  exists (corpus_tokens (token_freqs v) min_freq (unk_token :: reserved)).
  split_and!.
  - apply idx_to_token_init.
  - apply corpus_tokens_NoDup.
  - intros t. unfold v. rewrite corpus_tokens_elem, not_elem_of_cons. done.
  - intros i j a b Hij Hi Hj.
    pose proof (corpus_tokens_sorted tokens min_freq reserved_tokens
                  (unk_token :: reserved)) as Hs.
    by apply (StronglySorted_lookup _ _ i j a b Hs).
  - apply idx_to_token_NoDup.
Qed.

Lemma index_order_witness :
  NoDup (idx_to_token
           (Vocab_init (Some (Tokens1D ["c"; "a"; "b"; "a"])) 0 (Some ["<pad>"]))).
Proof.
  destruct (index_order (Some (Tokens1D ["c"; "a"; "b"; "a"])) 0 (Some ["<pad>"]))
    as (cp & _ & _ & _ & _ & H).
  apply H. by apply (bool_decide_unpack _).
Defined.

(** ** Size of the vocabulary *)

(** C5, as stated, fails in both directions: a reserved unknown token is
    counted by the code (nothing removes it from the reserved list), and an
    unknown token in the corpus is not counted again by the code. *)
Lemma size_differs_from_specified :
  Vocab_len vocab_reserved_unk = 2
  ∧ specified_size None 0 (Some ["<unk>"]) = 1
  ∧ Vocab_len (Vocab_init (Some (Tokens1D ["<unk>"])) 0 None) = 1
  ∧ specified_size (Some (Tokens1D ["<unk>"])) 0 None = 2.
Proof. split_and!; by vm_compute. Qed.

(** C5 (amended): [size()] is one for the unknown token, plus the length of
    the reserved list as supplied, plus the number of distinct corpus tokens
    that occur at least [min_freq] times and are neither the unknown token
    nor in the reserved list. *)
Theorem size_formula tokens min_freq reserved_tokens :
  let flat := flatten (default (Tokens1D []) tokens) in
  let reserved := default [] reserved_tokens in
  Vocab_len (Vocab_init tokens min_freq reserved_tokens)
  = 1 + Z.of_nat (length reserved)
    + Z.of_nat (size (filter (λ t, min_freq ≤ Z.of_nat (occurrences flat t)
                                   ∧ t ≠ unk_token ∧ t ∉ reserved)
                        (list_to_set flat : gset string))).
Proof.
  intros flat reserved. rewrite Vocab_len_init. fold reserved. do 2 f_equal.
  rewrite <- (size_list_to_set (C := gset string));
    [|apply corpus_tokens_NoDup].
  f_equal. apply set_eq. intros t.
  rewrite elem_of_list_to_set, elem_of_filter, elem_of_list_to_set.
  rewrite corpus_tokens_elem, not_elem_of_cons. fold flat. tauto.
Qed.

(** ** Corpus encoder *)

(** C9: the encoder returns, together with the vocabulary built from the
    character tokens of the normalised lines, the indices of all those
    tokens in document order as one flat list (line boundaries are gone);
    for a positive [max_tokens] the list is cut to its first [max_tokens]
    elements, for [max_tokens <= 0] it is left whole. *)
Theorem load_corpus_flat_prefix (raw : list string) (max_tokens : Z) :
  let tokens := list_of_str <$> read_time_machine raw in
  let vocab := Vocab_init (Some (Tokens2D tokens)) 0 None in
  let full := (λ t, Idx (token_to_index vocab t)) <$> concat tokens in
  ∃ corpus,
    load_corpus_time_machine raw max_tokens = Return (corpus, vocab)
    ∧ (0 < max_tokens →
         corpus = take (Z.to_nat max_tokens) full
         ∧ corpus `prefix_of` full
         ∧ Z.of_nat (length corpus) ≤ max_tokens)
    ∧ (max_tokens ≤ 0 → corpus = full).
Proof.
  intros tokens vocab full. unfold load_corpus_time_machine.
  change (tokenize (read_time_machine raw) "char").2
    with (Return (Some tokens) : result (option (list (list string)))).
  cbv beta iota. change (Tokens2D <$> Some tokens) with (Some (Tokens2D tokens)).
  fold vocab.
  change ((λ token, Vocab_getitem vocab (Token token)) <$> concat tokens)
    with full.
  eexists. split; [reflexivity|]. split.
  - intros Hpos. rewrite bool_decide_eq_true_2 by done.
    unfold py_slice_to. rewrite bool_decide_eq_true_2 by lia.
    split_and!; [done|apply prefix_take|].
    rewrite length_take. lia.
  - intros Hneg. by rewrite bool_decide_eq_false_2 by lia.
Qed.

Lemma load_corpus_flat_prefix_witness :
  ∃ vocab,
    load_corpus_time_machine ["ab"; "c"] 2 = Return ([Idx 1; Idx 2], vocab)
    ∧ load_corpus_time_machine ["ab"; "c"] 0
      = Return ([Idx 1; Idx 2; Idx 3], vocab).
Proof.
  destruct (load_corpus_flat_prefix ["ab"; "c"] 2) as (c2 & E2 & H2 & _).
  destruct (load_corpus_flat_prefix ["ab"; "c"] 0) as (c0 & E0 & _ & H0).
  destruct H2 as (-> & _ & _); [lia|]. rewrite H0 in E0 by lia.
  eexists. split; [exact E2|exact E0].
Defined.

(** ** Normalised lines and word tokenization *)

Lemma alpha_not_space c : is_alpha c = true → isspace c = false.
Proof. destruct c as [[] [] [] [] [] [] [] []]; by vm_compute. Qed.

Lemma alpha_lower_not_space c :
  is_alpha c = true → isspace (lower_char c) = false.
Proof. destruct c as [[] [] [] [] [] [] [] []]; by vm_compute. Qed.

Lemma alpha_lower_alpha c : is_alpha c = true → is_alpha (lower_char c) = true.
Proof. destruct c as [[] [] [] [] [] [] [] []]; by vm_compute. Qed.

Lemma lower_space : lower_char space = space ∧ isspace space = true
                    ∧ is_alpha space = false.
Proof. by vm_compute. Qed.

Lemma append_cons (c : ascii) (s t : string) :
  String c s +:+ t = String c (s +:+ t).
Proof. reflexivity. Qed.

Lemma append_empty_r (s : string) : s +:+ EmptyString = s.
Proof. induction s as [|c s IH]; [done|by rewrite append_cons, IH]. Qed.

Lemma append_snoc (w : string) (c : ascii) (s : string) :
  (w +:+ String c EmptyString) +:+ s = w +:+ String c s.
Proof. induction w as [|d w IH]; [done|by rewrite !append_cons, IH]. Qed.

Lemma nonempty_snoc (w : string) (c : ascii) :
  nonempty (w +:+ String c EmptyString) = true.
Proof. by destruct w. Qed.

Lemma split_go_nonempty (w s : string) : nonempty w = true → split_go w s ≠ [].
Proof.
  revert w. induction s as [|c s IH]; intros w Hw; simpl.
  - by destruct w.
  - destruct (isspace c).
    + by destruct w.
    + apply IH, nonempty_snoc.
Qed.

(** Splitting a line of that shape and joining the words with single spaces
    gives the line back; [w] is the word being read. *)
Lemma join_split_go (w s : string) :
  spaced_words (nonempty w) s = true →
  join " " (split_go w s) = w +:+ s.
Proof.
  revert w. induction s as [|c s IH]; intros w; simpl.
  - destruct w; [done|]. intros _. simpl. by rewrite append_empty_r.
  - destruct (isspace c) eqn:Hc.
    + intros [[Hsp Hw]%andb_prop Hs]%andb_prop.
      apply Ascii.eqb_eq in Hsp as ->.
      destruct w as [|d w]; [done|].
      specialize (IH EmptyString Hs). simpl in IH.
      destruct (split_go EmptyString s) as [|w1 ws] eqn:Hsplit.
      * destruct s as [|e s]; [done|]. simpl in Hs, Hsplit.
        destruct (isspace e); [by rewrite andb_false_r in Hs|].
        by apply split_go_nonempty in Hsplit.
      * change (join " " (String d w :: w1 :: ws))
          with (String d w +:+ " " +:+ join " " (w1 :: ws)).
        by rewrite IH.
    + intros Hs. rewrite IH; [apply append_snoc|].
      by rewrite nonempty_snoc.
Qed.

Lemma re_sub_go_single_spaced (in_run : bool) (s : string) :
  single_spaced in_run (re_sub_go in_run s) = true.
Proof.
  revert in_run. induction s as [|c s IH]; intros in_run; simpl; [done|].
  destruct (is_alpha c) eqn:Hc; simpl.
  - by rewrite Hc.
  - destruct in_run; [done|]. simpl. apply IH.
Qed.

Lemma single_spaced_weaken (b : bool) (s : string) :
  single_spaced b s = true → single_spaced false s = true.
Proof.
  destruct s as [|c s]; simpl; [done|]. destruct (is_alpha c); [done|].
  intros [[-> _]%andb_prop ->]%andb_prop. done.
Qed.

Lemma lstrip_single_spaced (b : bool) (s : string) :
  single_spaced b s = true → single_spaced true (lstrip s) = true.
Proof.
  revert b. induction s as [|c s IH]; intros b; simpl; [done|].
  destruct (is_alpha c) eqn:Hc.
  - rewrite (alpha_not_space _ Hc). simpl. by rewrite Hc.
  - intros [[Hsp _]%andb_prop Hs]%andb_prop.
    apply Ascii.eqb_eq in Hsp as ->.
    rewrite (proj1 (proj2 lower_space)). by apply (IH true).
Qed.

Lemma rstrip_letter_words (in_word : bool) (s : string) :
  single_spaced (negb in_word) s = true →
  rstrip s = EmptyString ∨ letter_words in_word (rstrip s) = true.
Proof.
  revert in_word. induction s as [|c s IH]; intros in_word; simpl; [by left|].
  destruct (is_alpha c) eqn:Hc.
  - intros Hs. right. destruct (IH true Hs) as [->|Hr].
    + rewrite (alpha_not_space _ Hc). simpl. by rewrite Hc.
    + destruct (rstrip s) as [|d r].
      * rewrite (alpha_not_space _ Hc). simpl. by rewrite Hc.
      * change (letter_words in_word (String c (String d r)))
          with (if is_alpha c then letter_words true (String d r)
                else Ascii.eqb c space && in_word
                     && letter_words false (String d r)).
        by rewrite Hc.
  - intros [[Hsp Hw]%andb_prop Hs]%andb_prop.
    apply Ascii.eqb_eq in Hsp as ->. rewrite negb_involutive in Hw. subst in_word.
    destruct (IH false Hs) as [->|Hr].
    + left. by rewrite (proj1 (proj2 lower_space)).
    + right. destruct (rstrip s) as [|d r]; [done|].
      change (letter_words true (String space (String d r)))
        with (if is_alpha space then letter_words true (String d r)
              else Ascii.eqb space space && true
                   && letter_words false (String d r)).
      by rewrite Hc, Hr.
Qed.

Lemma lower_spaced_words (in_word : bool) (s : string) :
  letter_words in_word s = true → spaced_words in_word (lower s) = true.
Proof.
  revert in_word. induction s as [|c s IH]; intros in_word; simpl; [done|].
  destruct (is_alpha c) eqn:Hc.
  - rewrite (alpha_lower_not_space _ Hc). apply IH.
  - intros [[Hsp ->]%andb_prop Hs]%andb_prop.
    apply Ascii.eqb_eq in Hsp as ->.
    rewrite (proj1 lower_space), (proj1 (proj2 lower_space)).
    by rewrite (IH _ Hs).
Qed.

(** A normalised line is empty or made of words separated by single spaces. *)
Lemma normalize_line_shape (line : string) :
  normalize_line line = EmptyString
  ∨ spaced_words false (normalize_line line) = true.
Proof.
  unfold normalize_line, strip, re_sub_nonalpha.
  pose proof (re_sub_go_single_spaced false line) as H1.
  apply lstrip_single_spaced in H1.
  destruct (rstrip_letter_words false _ H1) as [->|H2]; [by left|].
  right. by apply lower_spaced_words.
Qed.

Lemma join_split_normalize_line (line : string) :
  join " " (split (normalize_line line)) = normalize_line line.
Proof.
  destruct (normalize_line_shape line) as [->|Hs]; [done|].
  by apply (join_split_go EmptyString).
Qed.

(** C7: for every input line (empty or not), the word-mode tokens of its
    normalised form, joined with single spaces, are the normalised line. *)
Theorem word_tokens_rejoin (line : string) :
  ∃ ws,
    tokenize (read_time_machine [line]) "word" = ([], Return (Some [ws]))
    ∧ join " " ws = normalize_line line.
Proof.
  exists (split (normalize_line line)). split; [done|].
  apply join_split_normalize_line.
Qed.

(** * Further properties of the code *)

(** ** Normalised lines *)

Lemma alpha_lower_is_lower c : is_alpha c = true → is_lower (lower_char c) = true.
Proof. destruct c as [[] [] [] [] [] [] [] []]; by vm_compute. Qed.

Lemma is_lower_facts c :
  is_lower c = true →
  is_alpha c = true ∧ lower_char c = c ∧ isspace c = false.
Proof. destruct c as [[] [] [] [] [] [] [] []]; by vm_compute. Qed.

Lemma is_alpha_lower_char c : is_alpha (lower_char c) = is_alpha c.
Proof. destruct c as [[] [] [] [] [] [] [] []]; by vm_compute. Qed.

Lemma letter_words_lower (in_word : bool) (s : string) :
  letter_words in_word s = true → letter_words in_word (lower s) = true.
Proof.
  revert in_word. induction s as [|c s IH]; intros in_word; simpl; [done|].
  rewrite is_alpha_lower_char. destruct (is_alpha c) eqn:Hc; [apply IH|].
  intros [[Hsp ->]%andb_prop Hs]%andb_prop.
  apply Ascii.eqb_eq in Hsp as ->.
  rewrite (proj1 lower_space), Ascii.eqb_refl. by rewrite (IH _ Hs).
Qed.

Lemma letter_words_lower_charset (in_word : bool) (s : string) :
  letter_words in_word s = true →
  str_forallb (λ c, is_lower c || Ascii.eqb c space) (lower s) = true.
Proof.
  revert in_word. induction s as [|c s IH]; intros in_word; simpl; [done|].
  destruct (is_alpha c) eqn:Hc.
  - intros Hs. by rewrite (alpha_lower_is_lower _ Hc), (IH _ Hs).
  - intros [[Hsp _]%andb_prop Hs]%andb_prop.
    apply Ascii.eqb_eq in Hsp as ->.
    rewrite (proj1 lower_space), Ascii.eqb_refl, orb_true_r. by rewrite (IH _ Hs).
Qed.

(** A normalised line is empty, or words of letters separated by single
    spaces, with no character outside [a-z] and the space. *)
Lemma normalize_line_letter_words (line : string) :
  (normalize_line line = EmptyString
   ∨ letter_words false (normalize_line line) = true)
  ∧ str_forallb (λ c, is_lower c || Ascii.eqb c space) (normalize_line line)
    = true.
Proof.
  unfold normalize_line, strip, re_sub_nonalpha.
  pose proof (re_sub_go_single_spaced false line) as H1.
  apply lstrip_single_spaced in H1.
  destruct (rstrip_letter_words false _ H1) as [->|H2]; [by split; [left|]|].
  split; [right; by apply letter_words_lower|].
  by eapply letter_words_lower_charset.
Qed.

Lemma str_forallb_Forall (p : ascii → bool) (s : string) :
  str_forallb p s = true ↔ Forall (λ c, p c = true) (chars s).
Proof.
  induction s as [|c s IH]; simpl.
  - split; [constructor|done].
  - rewrite andb_true_iff, IH. unfold chars. simpl. rewrite Forall_cons. done.
Qed.

Lemma letter_words_chars (in_word : bool) (s : string) :
  letter_words in_word s = true →
  (in_word = false → ∃ c, head (chars s) = Some c ∧ is_alpha c = true)
  ∧ last (chars s) ≠ Some space
  ∧ (∀ i, chars s !! i = Some space → chars s !! S i ≠ Some space).
Proof.
  revert in_word. induction s as [|c s IH]; intros in_word; simpl.
  - intros ->. split_and!; done.
  - change (chars (String c s)) with (c :: chars s).
    destruct (is_alpha c) eqn:Hc.
    + intros Hs. destruct (IH _ Hs) as (_ & Hlast & Hadj).
      split_and!.
      * intros _. by exists c.
      * rewrite last_cons. destruct (last (chars s)) eqn:Hl; [done|].
        intros [= ->]. by rewrite (proj2 (proj2 lower_space)) in Hc.
      * intros [|i]; simpl; [|apply Hadj].
        intros [= ->]. by rewrite (proj2 (proj2 lower_space)) in Hc.
    + intros [[Hsp ->]%andb_prop Hs]%andb_prop.
      apply Ascii.eqb_eq in Hsp as ->.
      destruct (IH _ Hs) as (Hhead & Hlast & Hadj).
      destruct (Hhead eq_refl) as (d & Hd & Hdalpha).
      split_and!; [done| |].
      * destruct (chars s) as [|d' cs]; [done|]. by rewrite last_cons_cons.
      * intros [|i]; simpl; [|apply Hadj].
        intros _ Hsp. assert (d = space) as ->.
        { destruct (chars s); simpl in *; congruence. }
        by rewrite (proj2 (proj2 lower_space)) in Hdalpha.
Qed.

(** X1: every normalised line consists of the letters [a-z] and spaces
    only; it neither starts nor ends with a space, and no two spaces are
    adjacent. *)
Theorem normalize_line_charset (line : string) :
  Forall (λ c, is_lower c = true ∨ c = space) (chars (normalize_line line))
  ∧ head (chars (normalize_line line)) ≠ Some space
  ∧ last (chars (normalize_line line)) ≠ Some space
  ∧ (∀ i, chars (normalize_line line) !! i = Some space →
          chars (normalize_line line) !! S i ≠ Some space).
Proof.
  destruct (normalize_line_letter_words line) as [Hshape Hset].
  split.
  { apply str_forallb_Forall in Hset. eapply Forall_impl; [exact Hset|].
    intros c [Hc|Hc%Ascii.eqb_eq]%orb_prop; auto. }
  destruct Hshape as [->|Hw]; [split_and!; done|].
  destruct (letter_words_chars _ _ Hw) as (Hhead & Hlast & Hadj).
  split_and!; [|done|done].
  destruct (Hhead eq_refl) as (c & -> & Hc). intros [= ->].
  by rewrite (proj2 (proj2 lower_space)) in Hc.
Qed.

Lemma letter_words_re_sub_go (in_word in_run : bool) (s : string) :
  letter_words in_word s = true →
  in_word = false ∨ in_run = false →
  re_sub_go in_run s = s.
Proof.
  revert in_word in_run. induction s as [|c s IH]; intros b r; simpl; [done|].
  destruct (is_alpha c) eqn:Hc.
  - intros Hs _. by rewrite (IH true false Hs) by auto.
  - intros [[Hsp ->]%andb_prop Hs]%andb_prop [?| ->]; [done|].
    apply Ascii.eqb_eq in Hsp as ->. by rewrite (IH false true Hs) by auto.
Qed.

Lemma letter_words_lstrip (s : string) :
  letter_words false s = true → lstrip s = s.
Proof.
  destruct s as [|c s]; simpl; [done|].
  destruct (is_alpha c) eqn:Hc; [|by rewrite andb_false_r].
  by rewrite (alpha_not_space _ Hc).
Qed.

Lemma letter_words_rstrip (in_word : bool) (s : string) :
  letter_words in_word s = true → rstrip s = s.
Proof.
  revert in_word. induction s as [|c s IH]; intros b; simpl; [done|].
  destruct (is_alpha c) eqn:Hc.
  - intros Hs. rewrite (IH _ Hs). destruct s; [|done].
    by rewrite (alpha_not_space _ Hc).
  - intros [_ Hs]%andb_prop. rewrite (IH _ Hs). by destruct s.
Qed.

Lemma lower_fixed (s : string) :
  str_forallb (λ c, is_lower c || Ascii.eqb c space) s = true → lower s = s.
Proof.
  induction s as [|c s IH]; simpl; [done|].
  intros [Hc Hs]%andb_prop. rewrite (IH Hs). f_equal.
  apply orb_prop in Hc as [Hc|Hc%Ascii.eqb_eq].
  - apply (is_lower_facts _ Hc).
  - subst c. apply lower_space.
Qed.

(** X2: normalising is idempotent: a normalised line is left as it is. *)
Theorem normalize_line_idempotent (line : string) :
  normalize_line (normalize_line line) = normalize_line line.
Proof.
  destruct (normalize_line_letter_words line) as [[->|Hw] Hset]; [done|].
  generalize dependent (normalize_line line). intros n Hw Hset.
  unfold normalize_line, strip, re_sub_nonalpha.
  rewrite (letter_words_re_sub_go false false n Hw) by auto.
  rewrite (letter_words_lstrip n Hw), (letter_words_rstrip _ n Hw).
  by apply lower_fixed.
Qed.

Lemma space_not_alpha c : isspace c = true → is_alpha c = false.
Proof.
  intros Hs. destruct (is_alpha c) eqn:Hc; [|done].
  by rewrite (alpha_not_space _ Hc) in Hs.
Qed.

Lemma no_letters_re_sub_go (in_run : bool) (s : string) :
  str_forallb (λ c, negb (is_alpha c)) (re_sub_go in_run s)
  = str_forallb (λ c, negb (is_alpha c)) s.
Proof.
  revert in_run. induction s as [|c s IH]; intros r; simpl; [done|].
  destruct (is_alpha c) eqn:Hc; simpl.
  - by rewrite Hc.
  - destruct r; simpl; [apply IH|]. by rewrite IH.
Qed.

Lemma no_letters_lstrip (s : string) :
  str_forallb (λ c, negb (is_alpha c)) (lstrip s)
  = str_forallb (λ c, negb (is_alpha c)) s.
Proof.
  induction s as [|c s IH]; simpl; [done|].
  destruct (isspace c) eqn:Hc; [|done].
  by rewrite (space_not_alpha _ Hc), IH.
Qed.

Lemma no_letters_rstrip (s : string) :
  str_forallb (λ c, negb (is_alpha c)) (rstrip s)
  = str_forallb (λ c, negb (is_alpha c)) s.
Proof.
  induction s as [|c s IH]; simpl; [done|].
  destruct (rstrip s) as [|d r].
  - rewrite <- IH. simpl. destruct (isspace c) eqn:Hc; simpl.
    + by rewrite (space_not_alpha _ Hc).
    + done.
  - by rewrite <- IH.
Qed.

Lemma no_letters_lower (s : string) :
  str_forallb (λ c, negb (is_alpha c)) (lower s)
  = str_forallb (λ c, negb (is_alpha c)) s.
Proof.
  induction s as [|c s IH]; simpl; [done|].
  by rewrite is_alpha_lower_char, IH.
Qed.

(** X3: a line is normalised to the empty string exactly when it has no
    letter: blank and punctuation-only lines are kept, as empty lines. *)
Theorem normalize_line_empty_iff (line : string) :
  normalize_line line = EmptyString
  ↔ str_forallb (λ c, negb (is_alpha c)) line = true.
Proof.
  assert (str_forallb (λ c, negb (is_alpha c)) (normalize_line line)
          = str_forallb (λ c, negb (is_alpha c)) line) as Heq.
  { unfold normalize_line, strip, re_sub_nonalpha.
    by rewrite no_letters_lower, no_letters_rstrip, no_letters_lstrip,
      no_letters_re_sub_go. }
  rewrite <- Heq. split; [by intros ->|].
  destruct (normalize_line_letter_words line) as [[->|Hw] _]; [done|].
  destruct (normalize_line line) as [|c s]; [done|]. simpl in *.
  destruct (is_alpha c); [done|]. by rewrite andb_false_r in Hw.
Qed.

(** ** Tokens *)

Lemma str_forallb_snoc (p : ascii → bool) (w : string) (c : ascii) :
  str_forallb p (w +:+ String c EmptyString) = str_forallb p w && p c.
Proof.
  induction w as [|d w IH]; [simpl; by rewrite andb_true_r|].
  rewrite append_cons. simpl. by rewrite IH, andb_assoc.
Qed.

Lemma split_go_Forall (p : ascii → bool) (w s : string) :
  str_forallb p w = true →
  str_forallb (λ c, p c || isspace c) s = true →
  Forall (λ t, t ≠ EmptyString ∧ str_forallb p t = true) (split_go w s).
Proof.
  revert w. induction s as [|c s IH]; intros w Hw; simpl.
  - intros _. destruct w; repeat constructor; done.
  - intros [Hc Hs]%andb_prop. destruct (isspace c) eqn:Hsp.
    + destruct w; [by apply IH|]. constructor; [done|by apply IH].
    + apply IH; [|done]. rewrite str_forallb_snoc, Hw.
      by rewrite orb_false_r in Hc.
Qed.

(** X4: in word mode every token, of every line, is non-empty and holds no
    whitespace character. *)
Theorem word_tokens_no_space (lines : list string) :
  ∃ toks,
    tokenize lines "word" = ([], Return (Some toks))
    ∧ Forall (Forall (λ t, t ≠ EmptyString
                           ∧ str_forallb (λ c, negb (isspace c)) t = true))
        toks.
Proof.
  exists (split <$> lines). split; [done|].
  apply Forall_fmap, Forall_forall. intros line _.
  apply (split_go_Forall (λ c, negb (isspace c))); [done|].
  induction line as [|c s IH]; simpl; [done|].
  by rewrite IH, orb_negb_l.
Qed.

(** X5: in word mode the tokens of normalised lines are non-empty words of
    the letters [a-z]. *)
Theorem word_tokens_lowercase (raw : list string) :
  ∃ toks,
    tokenize (read_time_machine raw) "word" = ([], Return (Some toks))
    ∧ Forall (Forall (λ t, t ≠ EmptyString ∧ str_forallb is_lower t = true))
        toks.
Proof.
  exists (split <$> read_time_machine raw). split; [done|].
  unfold read_time_machine. rewrite <- list_fmap_compose.
  apply Forall_fmap, Forall_forall. intros line _. simpl.
  apply (split_go_Forall is_lower); [done|].
  destruct (normalize_line_letter_words line) as [_ Hset].
  revert Hset. generalize (normalize_line line). intros s.
  induction s as [|c s IH]; simpl; [done|].
  intros [Hc Hs]%andb_prop. rewrite (IH Hs), andb_true_r.
  apply orb_prop in Hc as [->|Hc%Ascii.eqb_eq]; [done|].
  subst c. by rewrite (proj1 (proj2 lower_space)), orb_true_r.
Qed.

Lemma split_go_nil (w s : string) :
  split_go w s = [] ↔ w = EmptyString ∧ str_forallb isspace s = true.
Proof.
  revert w. induction s as [|c s IH]; intros w; simpl.
  - destruct w; [done|]. split; [done|]. by intros [? _].
  - destruct (isspace c); simpl.
    + destruct w; [by rewrite IH|]. split; [done|]. by intros [? _].
    + rewrite IH. split; [|by intros [_ ?]]. intros [Hw _].
      pose proof (nonempty_snoc w c) as Hn. by rewrite Hw in Hn.
Qed.

(** X6: in word mode a line gives the empty token list exactly when all its
    characters are whitespace (the empty line included). *)
Theorem word_tokens_empty_iff (line : string) :
  tokenize [line] "word" = ([], Return (Some [[]]))
  ↔ str_forallb isspace line = true.
Proof.
  change (tokenize [line] "word") with
    (@nil string, Return (Some [split line])).
  unfold split. rewrite <- (and_True (str_forallb isspace line = true)) at 1.
  split.
  - intros [= H]. apply split_go_nil in H as [_ H]. done.
  - intros [H _]. by rewrite (proj2 (split_go_nil EmptyString line)).
Qed.

Lemma join_empty_list_of_str (s : string) : join EmptyString (list_of_str s) = s.
Proof.
  induction s as [|c s IH]; simpl; [done|].
  destruct (list_of_str s) as [|t ts] eqn:Hl.
  - by destruct s.
  - rewrite IH. done.
Qed.

(** X7: in char mode the tokens of each line are its characters, one token
    of length one per character, and joining them gives the line back. *)
Theorem char_tokens_round_trip (lines : list string) :
  ∃ toks,
    tokenize lines "char" = ([], Return (Some toks))
    ∧ join EmptyString <$> toks = lines
    ∧ Forall2 (λ line ts, length ts = String.length line) lines toks
    ∧ Forall (Forall (λ t, String.length t = 1%nat)) toks.
Proof.
  exists (list_of_str <$> lines). split; [done|]. split_and!.
  - rewrite <- list_fmap_compose. rewrite <- (list_fmap_id lines) at 2.
    apply list_fmap_ext. intros _ line _. apply join_empty_list_of_str.
  - apply Forall2_fmap_r, Forall_Forall2_diag, Forall_forall. intros line _.
    induction line as [|c s IH]; simpl; [done|by rewrite IH].
  - apply Forall_fmap, Forall_forall. intros line _.
    induction line as [|c s IH]; simpl; by constructor.
Qed.

(** ** Counts held by the vocabulary *)

Lemma counter_add_sum c t :
  sum_list (counter_add c t).*2 = S (sum_list c.*2).
Proof.
  induction c as [|[k n] c IH]; csimpl; [done|].
  case_bool_decide; csimpl; [done|]. rewrite IH. lia.
Qed.

Lemma Counter_sum l : sum_list (Counter l).*2 = length l.
Proof.
  induction l as [|x l IH] using rev_ind; [done|].
  rewrite Counter_snoc, counter_add_sum, IH, length_app. simpl. lia.
Qed.

Lemma StronglySorted_True {A} (l : list A) : StronglySorted (λ _ _, True) l.
Proof.
  induction l as [|x l IH]; constructor; [done|]. by apply Forall_true.
Qed.

(** X8: [token_freqs] holds every distinct token of the corpus once, with
    the number of its occurrences, in order of non-increasing count; the
    counts add up to the number of tokens.  Neither [min_freq] nor the
    reserved tokens change it. *)
Theorem token_freqs_counts tokens min_freq reserved_tokens :
  let flat := flatten (default (Tokens1D []) tokens) in
  let tf := token_freqs (Vocab_init tokens min_freq reserved_tokens) in
  NoDup tf.*1
  ∧ (∀ t n, (t, n) ∈ tf ↔ t ∈ flat ∧ n = occurrences flat t)
  ∧ (∀ (i j : nat) x y, (i < j)%nat → tf !! i = Some x → tf !! j = Some y →
       (y.2 ≤ x.2)%nat)
  ∧ sum_list tf.*2 = length flat.
Proof.
  intros flat tf. split_and!.
  - apply token_freqs_keys_NoDup.
  - intros t n. split.
    + intros He.
      pose proof (token_freqs_values tokens min_freq reserved_tokens _ He) as Hn.
      split; [|done].
      apply (token_freqs_keys_elem tokens min_freq reserved_tokens).
      by apply (list_elem_of_fmap_2 fst) in He.
    + intros [Ht ->].
      apply (token_freqs_keys_elem tokens min_freq reserved_tokens) in Ht.
      apply list_elem_of_fmap in Ht as [[k n] [-> He]].
      pose proof (token_freqs_values tokens min_freq reserved_tokens _ He) as Hn.
      fold flat in Hn. by rewrite <- Hn.
  - intros i j x y Hij Hi Hj.
    pose proof (sorted_desc_stable (λ _ _, True) (Counter flat)
                  (StronglySorted_True _)) as Hs.
    destruct (StronglySorted_lookup _ _ i j x y Hs Hij Hi Hj) as [?|[? _]]; lia.
  - unfold tf. rewrite token_freqs_init, sorted_desc_Permutation.
    apply Counter_sum.
Qed.

(** ** Forward lookup in a built vocabulary *)

Lemma idx_to_token_head tokens min_freq reserved_tokens :
  idx_to_token (Vocab_init tokens min_freq reserved_tokens) !! 0%nat
  = Some unk_token.
Proof. by rewrite idx_to_token_init. Qed.

(** The two ways a forward lookup ends: at a position that holds the token,
    or, for a token outside the vocabulary, at 0. *)
Lemma token_to_index_cases tokens min_freq reserved_tokens (t : string) :
  let v := Vocab_init tokens min_freq reserved_tokens in
  (t ∈ idx_to_token v
   ∧ (0 ≤ token_to_index v t)
   ∧ idx_to_token v !! Z.to_nat (token_to_index v t) = Some t)
  ∨ ((t ∉ idx_to_token v) ∧ token_to_index v t = 0).
Proof.
  intros v. unfold token_to_index.
  destruct (token_to_idx v !! t) as [i|] eqn:Hi.
  - left. unfold v in Hi. rewrite token_to_idx_init in Hi. fold v in Hi.
    destruct (fill_lookup_Some _ _ _ Hi) as [H0 Hl].
    split_and!; [by eapply list_elem_of_lookup_2|done|done].
  - right. unfold v in Hi. rewrite token_to_idx_init in Hi. fold v in Hi.
    by apply fill_lookup_None in Hi.
Qed.

(** A token outside the unknown and reserved tokens sits in the corpus part. *)
Lemma corpus_position tokens min_freq reserved_tokens (t : string) (n : nat) :
  let reserved := default [] reserved_tokens in
  let v := Vocab_init tokens min_freq reserved_tokens in
  t ∉ unk_token :: reserved →
  idx_to_token v !! n = Some t →
  (S (length reserved) ≤ n)%nat
  ∧ corpus_tokens (token_freqs v) min_freq (unk_token :: reserved)
      !! (n - S (length reserved))%nat = Some t.
Proof.
  intros reserved v Ht Hn. unfold v in Hn. rewrite idx_to_token_init in Hn.
  change (((unk_token :: reserved)
           ++ corpus_tokens (token_freqs v) min_freq (unk_token :: reserved))
          !! n = Some t) in Hn.
  apply lookup_app_Some in Hn as [Hn|[Hle Hn]].
  - exfalso. apply Ht. by eapply list_elem_of_lookup_2.
  - simpl in Hle. split; [lia|done].
Qed.

(** X9: forward lookup of any string in any built vocabulary returns an
    index in [0, size()), so looking that index up in reverse never raises. *)
Theorem getitem_in_range tokens min_freq reserved_tokens (t : string) :
  let v := Vocab_init tokens min_freq reserved_tokens in
  ∃ i, Vocab_getitem v (Token t) = Idx i
       ∧ 0 ≤ i < Vocab_len v
       ∧ raises (Vocab_to_tokens v (Index i)).1 = false.
Proof.
  intros v. exists (token_to_index v t). split; [done|].
  assert (0 ≤ token_to_index v t < Vocab_len v) as Hr.
  { unfold Vocab_len.
    destruct (token_to_index_cases tokens min_freq reserved_tokens t)
      as [(_ & H0 & Hl)|[_ Hz]].
    - apply lookup_lt_Some in Hl. fold v in H0, Hl. lia.
    - pose proof (idx_to_token_head tokens min_freq reserved_tokens) as Hh.
      apply lookup_lt_Some in Hh. fold v in Hh, Hz. lia. }
  split; [done|]. rewrite to_tokens_Index.
  destruct (py_getitem_Return (idx_to_token v) (token_to_index v t))
    as (x & -> & _); [|done].
  unfold Vocab_len in Hr. lia.
Qed.

(** X10: a token that is neither the unknown token nor reserved, and that is
    absent from the corpus or occurs fewer than [min_freq] times, resolves to
    the unknown index 0. *)
Theorem rare_token_unknown tokens min_freq reserved_tokens (t : string) :
  let flat := flatten (default (Tokens1D []) tokens) in
  let v := Vocab_init tokens min_freq reserved_tokens in
  t ≠ unk_token →
  t ∉ default [] reserved_tokens →
  t ∉ flat ∨ Z.of_nat (occurrences flat t) < min_freq →
  Vocab_getitem v (Token t) = Idx 0.
Proof.
  intros flat v Hu Hr Hrare.
  change (Vocab_getitem v (Token t)) with (Idx (token_to_index v t)).
  destruct (token_to_index_cases tokens min_freq reserved_tokens t)
    as [(Hin & _)|[_ H0]]; [|by f_equal].
  exfalso. rewrite idx_to_token_init in Hin.
  apply elem_of_cons in Hin as [?|Hin]; [done|].
  apply elem_of_app in Hin as [?|Hin]; [done|].
  apply corpus_tokens_elem in Hin as (Hf & Hm & _).
  destruct Hrare as [?|?]; [done|]. fold flat in Hm. lia.
Qed.

Lemma rare_token_unknown_witness :
  Vocab_getitem (Vocab_init (Some (Tokens2D [["a"; "b"; "a"]])) 2 None)
    (Token "b") = Idx 0.
Proof.
  apply rare_token_unknown.
  - by intros [=].
  - apply not_elem_of_nil.
  - right. by vm_compute.
Defined.

(** X11: a corpus token that occurs at least [min_freq] times and is
    neither the unknown token nor reserved resolves to an index behind the
    reserved ones, at which [idx_to_token] holds that token. *)
Theorem kept_token_index tokens min_freq reserved_tokens (t : string) :
  let flat := flatten (default (Tokens1D []) tokens) in
  let reserved := default [] reserved_tokens in
  let v := Vocab_init tokens min_freq reserved_tokens in
  t ∈ flat →
  min_freq ≤ Z.of_nat (occurrences flat t) →
  t ≠ unk_token →
  t ∉ reserved →
  ∃ i, Vocab_getitem v (Token t) = Idx i
       ∧ 1 + Z.of_nat (length reserved) ≤ i < Vocab_len v
       ∧ idx_to_token v !! Z.to_nat i = Some t.
Proof.
  intros flat reserved v Hf Hm Hu Hr. exists (token_to_index v t).
  split; [done|].
  assert (t ∉ unk_token :: reserved) as Hnot.
  { rewrite not_elem_of_cons. done. }
  destruct (token_to_index_cases tokens min_freq reserved_tokens t)
    as [(_ & H0 & Hl)|[Hout _]].
  - fold v in H0, Hl. split; [|done].
    destruct (corpus_position tokens min_freq reserved_tokens t _ Hnot Hl)
      as [Hle _].
    apply lookup_lt_Some in Hl. unfold Vocab_len. fold reserved in Hle. lia.
  - exfalso. apply Hout. rewrite idx_to_token_init.
    apply list_elem_of_further, elem_of_app. right.
    apply corpus_tokens_elem. done.
Qed.

Lemma kept_token_index_witness :
  ∃ i, Vocab_getitem (Vocab_init (Some (Tokens2D [["a"; "b"; "a"]])) 2
                        (Some ["<pad>"])) (Token "a") = Idx i
       ∧ 1 + Z.of_nat (length (default [] (Some ["<pad>"]))) ≤ i
         < Vocab_len (Vocab_init (Some (Tokens2D [["a"; "b"; "a"]])) 2
                        (Some ["<pad>"]))
       ∧ idx_to_token (Vocab_init (Some (Tokens2D [["a"; "b"; "a"]])) 2
                         (Some ["<pad>"])) !! Z.to_nat i = Some "a".
Proof.
  apply kept_token_index.
  - by apply (bool_decide_unpack _).
  - by vm_compute.
  - by intros [=].
  - by apply (bool_decide_unpack _).
Defined.

(** X12: of two corpus tokens that both get an index from the corpus (each
    occurs at least [min_freq] times and is neither the unknown token nor
    reserved), the one that occurs more often, or as often but is met first,
    has the smaller index. *)
Theorem frequent_token_smaller_index tokens min_freq reserved_tokens
    (a b : string) :
  let flat := flatten (default (Tokens1D []) tokens) in
  let reserved := default [] reserved_tokens in
  let v := Vocab_init tokens min_freq reserved_tokens in
  a ∈ flat → b ∈ flat →
  min_freq ≤ Z.of_nat (occurrences flat a) →
  min_freq ≤ Z.of_nat (occurrences flat b) →
  a ∉ unk_token :: reserved → b ∉ unk_token :: reserved →
  (occurrences flat b < occurrences flat a)%nat
  ∨ (occurrences flat a = occurrences flat b
     ∧ (first_pos flat a < first_pos flat b)%nat) →
  token_to_index v a < token_to_index v b.
Proof.
  intros flat reserved v Ha Hb Hma Hmb Hna Hnb Hord.
  assert (∀ t, t ∈ flat → min_freq ≤ Z.of_nat (occurrences flat t) →
               t ∉ unk_token :: reserved →
               0 ≤ token_to_index v t
               ∧ corpus_tokens (token_freqs v) min_freq (unk_token :: reserved)
                   !! (Z.to_nat (token_to_index v t) - S (length reserved))%nat
                 = Some t
               ∧ (S (length reserved) ≤ Z.to_nat (token_to_index v t))%nat)
    as Hpos.
  { intros t Ht Hm Hn.
    destruct (token_to_index_cases tokens min_freq reserved_tokens t)
      as [(_ & H0 & Hl)|[Hout _]].
    - destruct (corpus_position tokens min_freq reserved_tokens t _ Hn Hl).
      done.
    - exfalso. apply Hout. rewrite idx_to_token_init.
      apply list_elem_of_further, elem_of_app. right.
      by apply corpus_tokens_elem. }
  destruct (Hpos a Ha Hma Hna) as (Ha0 & Hla & Hlea).
  destruct (Hpos b Hb Hmb Hnb) as (Hb0 & Hlb & Hleb).
  pose proof (corpus_tokens_sorted tokens min_freq reserved_tokens
                (unk_token :: reserved)) as Hs.
  fold flat v in Hs.
  destruct (Nat.lt_trichotomy
              (Z.to_nat (token_to_index v a) - S (length reserved))
              (Z.to_nat (token_to_index v b) - S (length reserved)))
    as [Hlt|[Heq|Hgt]].
  - lia.
  - exfalso. rewrite Heq in Hla. assert (a = b) as -> by congruence. lia.
  - exfalso.
    pose proof (StronglySorted_lookup _ _ _ _ b a Hs Hgt Hlb Hla) as Hba.
    unfold freq_order in Hba. lia.
Qed.

Lemma frequent_token_smaller_index_witness :
  token_to_index
    (Vocab_init (Some (Tokens1D ["c"; "a"; "b"; "a"])) 0 None) "a"
  < token_to_index
      (Vocab_init (Some (Tokens1D ["c"; "a"; "b"; "a"])) 0 None) "c".
Proof.
  apply frequent_token_smaller_index.
  - by apply (bool_decide_unpack _).
  - by apply (bool_decide_unpack _).
  - by vm_compute.
  - by vm_compute.
  - by apply (bool_decide_unpack _).
  - by apply (bool_decide_unpack _).
  - left. vm_compute. lia.
Defined.

Lemma filter_ext_elem {A} (P Q : A → Prop)
    `{∀ x, Decision (P x)} `{∀ x, Decision (Q x)} (l : list A) :
  (∀ x, x ∈ l → P x ↔ Q x) → filter P l = filter Q l.
Proof.
  induction l as [|x l IH]; intros Hext; [done|].
  rewrite !filter_cons.
  rewrite IH by (intros y Hy; apply Hext; by apply list_elem_of_further).
  pose proof (Hext x (list_elem_of_here _ _)) as Hx.
  destruct (decide (P x)) as [HP|HP].
  - rewrite decide_True; [done|by apply Hx].
  - rewrite decide_False; [done|]. intros HQ. by apply HP, Hx.
Qed.

(** X13: every threshold [min_freq <= 1] builds the same vocabulary as the
    default 0: a counted token occurs at least once. *)
Theorem min_freq_at_most_one tokens reserved_tokens (min_freq : Z) :
  min_freq ≤ 1 →
  Vocab_init tokens min_freq reserved_tokens
  = Vocab_init tokens 0 reserved_tokens.
Proof.
  intros Hm. unfold Vocab_init. cbv zeta.
  assert (∀ u, corpus_tokens
                 (sorted_desc (count_corpus (default (Tokens1D []) tokens)))
                 min_freq u
               = corpus_tokens
                   (sorted_desc (count_corpus (default (Tokens1D []) tokens)))
                   0 u) as ->; [|done].
  intros u. unfold corpus_tokens. f_equal. apply filter_ext_elem.
  intros [k n] He. simpl.
  pose proof (token_freqs_values tokens 0 None _ He) as Hn.
  assert (k ∈ flatten (default (Tokens1D []) tokens)) as Hk.
  { apply (token_freqs_keys_elem tokens 0 None).
    by apply (list_elem_of_fmap_2 fst) in He. }
  apply occurrences_elem in Hk. simpl in Hn. split; intros [? ?]; split; (done || lia).
Qed.

Lemma min_freq_at_most_one_witness :
  Vocab_init (Some (Tokens1D ["a"; "b"])) 1 None
  = Vocab_init (Some (Tokens1D ["a"; "b"])) 0 None.
Proof. apply min_freq_at_most_one. lia. Defined.

(** X14: when the reserved tokens are pairwise distinct and differ from the
    unknown token, the reserved token at position [k] of the list resolves to
    the index [k + 1]. *)
Theorem reserved_token_index tokens min_freq reserved_tokens
    (k : nat) (t : string) :
  NoDup (unk_token :: default [] reserved_tokens) →
  default [] reserved_tokens !! k = Some t →
  Vocab_getitem (Vocab_init tokens min_freq reserved_tokens) (Token t)
  = Idx (Z.of_nat k + 1).
Proof.
  intros Hnd Hk.
  change (Vocab_getitem ?v (Token t)) with (Idx (token_to_index v t)).
  unfold token_to_index. rewrite token_to_idx_init.
  rewrite (fill_lookup_NoDup _ t (S k)).
  - simpl. f_equal. lia.
  - by apply idx_to_token_NoDup.
  - rewrite idx_to_token_init. simpl. by apply lookup_app_l_Some.
Qed.

Lemma reserved_token_index_witness :
  Vocab_getitem
    (Vocab_init (Some (Tokens1D ["a"])) 0 (Some ["<pad>"; "<bos>"]))
    (Token "<bos>") = Idx (Z.of_nat 1 + 1).
Proof.
  apply reserved_token_index.
  - by apply (bool_decide_unpack _).
  - reflexivity.
Defined.

(** ** Lookup of sequences *)

Lemma to_tokens_IndexSeq (v : Vocab) (l : list Z) :
  (Vocab_to_tokens v (IndexSeq l)).1
  = match getitem_each (idx_to_token v) l with
    | Return ts => Return (TokList ts)
    | Raise e => Raise e
    end.
Proof. done. Qed.

(** What forward lookup followed by reverse lookup gives for one token. *)
Lemma reverse_of_forward tokens min_freq reserved_tokens (t : string) :
  let v := Vocab_init tokens min_freq reserved_tokens in
  py_getitem (idx_to_token v) (token_to_index v t)
  = Return (if decide (t ∈ idx_to_token v) then t else unk_token).
Proof.
  intros v.
  destruct (token_to_index_cases tokens min_freq reserved_tokens t)
    as [(Hin & H0 & Hl)|[Hout Hz]].
  - fold v in Hin, H0, Hl. rewrite decide_True by done.
    by apply py_getitem_nonneg.
  - fold v in Hout, Hz. rewrite decide_False by done. rewrite Hz.
    apply py_getitem_nonneg; [done|]. apply idx_to_token_head.
Qed.

(** X15: encoding a list of tokens and decoding the indices never raises
    and gives the list back, with every token outside the vocabulary replaced
    by the unknown token. *)
Theorem encode_decode_list tokens min_freq reserved_tokens (ts : list string) :
  let v := Vocab_init tokens min_freq reserved_tokens in
  ∃ indices,
    Vocab_getitem v (TokenSeq (Token <$> ts)) = IdxList (Idx <$> indices)
    ∧ (Vocab_to_tokens v (IndexSeq indices)).1
      = Return (TokList ((λ t, if decide (t ∈ idx_to_token v) then t
                               else unk_token) <$> ts)).
Proof.
  intros v.
  pose proof (reverse_of_forward tokens min_freq reserved_tokens) as Hrev.
  cbv zeta in Hrev. fold v in Hrev. clearbody v.
  exists (token_to_index v <$> ts). split.
  - simpl. f_equal. induction ts as [|t ts IH]; csimpl; [done|by rewrite IH].
  - rewrite to_tokens_IndexSeq.
    assert (getitem_each (idx_to_token v) (token_to_index v <$> ts)
            = Return ((λ t, if decide (t ∈ idx_to_token v) then t
                            else unk_token) <$> ts)) as ->; [|done].
    induction ts as [|t ts IH]; csimpl; [done|].
    by rewrite Hrev, IH.
Qed.

Lemma getitem_each_Return (l : list string) (indices : list Z) :
  Forall (λ i, - Z.of_nat (length l) ≤ i < Z.of_nat (length l)) indices →
  ∃ ts, getitem_each l indices = Return ts
        ∧ Forall2 (λ i t, l !! Z.to_nat (i `mod` Z.of_nat (length l)) = Some t)
            indices ts.
Proof.
  induction 1 as [|i indices Hi _ (ts & IH & Hts)]; simpl.
  - exists []. by split; [|constructor].
  - destruct (py_getitem_Return l i Hi) as (t & -> & Ht). rewrite IH.
    exists (t :: ts). split; [done|]. constructor; [|done].
    rewrite <- Ht. f_equal. f_equal. case_bool_decide.
    + rewrite <- (Z.mod_unique_pos i (Z.of_nat (length l)) (-1)
                  (i + Z.of_nat (length l))); lia.
    + by rewrite Z.mod_small by lia.
Qed.

Lemma getitem_each_Raise (l : list string) (indices : list Z) :
  Exists (λ i, i < - Z.of_nat (length l) ∨ Z.of_nat (length l) ≤ i) indices →
  getitem_each l indices = Raise IndexError.
Proof.
  induction 1 as [i indices Hi|i indices _ IH]; simpl.
  - by rewrite py_getitem_Raise.
  - rewrite IH. destruct (py_getitem l i) as [t|e] eqn:Hg; [done|].
    destruct (decide (- Z.of_nat (length l) ≤ i < Z.of_nat (length l)))
      as [Hin|Hout].
    + destruct (py_getitem_Return l i Hin) as (t & Ht & _). congruence.
    + rewrite py_getitem_Raise in Hg by lia. congruence.
Qed.

(** X16: reverse lookup of a list of indices returns the tokens at these
    indices, one per index and in order, when every index is in
    [-size(), size()) (a negative one counting from the end); it raises
    [IndexError] as soon as one index is outside that range; the vocabulary
    is the same after the call. *)
Theorem to_tokens_index_list (v : Vocab) (indices : list Z) :
  (Forall (λ i, - Vocab_len v ≤ i < Vocab_len v) indices →
   ∃ ts, (Vocab_to_tokens v (IndexSeq indices)).1 = Return (TokList ts)
         ∧ Forall2 (λ i t, idx_to_token v !! Z.to_nat (i `mod` Vocab_len v)
                           = Some t) indices ts)
  ∧ (Exists (λ i, i < - Vocab_len v ∨ Vocab_len v ≤ i) indices →
     (Vocab_to_tokens v (IndexSeq indices)).1 = Raise IndexError)
  ∧ (Vocab_to_tokens v (IndexSeq indices)).2 = v.
Proof.
  rewrite to_tokens_IndexSeq. unfold Vocab_len. split_and!; [| |done].
  - intros Hall. destruct (getitem_each_Return _ _ Hall) as (ts & -> & Hts).
    by exists ts.
  - intros Hex. by rewrite getitem_each_Raise.
Qed.

Lemma to_tokens_index_list_witness :
  (∃ ts, (Vocab_to_tokens vocab_aab (IndexSeq [2; -1; 0])).1
         = Return (TokList ts)
         ∧ Forall2 (λ i t, idx_to_token vocab_aab
                             !! Z.to_nat (i `mod` Vocab_len vocab_aab) = Some t)
             [2; -1; 0] ts)
  ∧ (Vocab_to_tokens vocab_aab (IndexSeq [0; 3])).1 = Raise IndexError.
Proof.
  split.
  - apply (proj1 (to_tokens_index_list vocab_aab [2; -1; 0])).
    repeat constructor; by vm_compute.
  - apply (proj1 (proj2 (to_tokens_index_list vocab_aab [0; 3]))).
    apply Exists_cons_tl, Exists_cons_hd. right. by vm_compute.
Defined.

(** ** Size and order of the corpus *)

Lemma occurrences_Permutation l1 l2 t :
  l1 ≡ₚ l2 → occurrences l1 t = occurrences l2 t.
Proof. intros H. unfold occurrences. by rewrite H. Qed.

(** X17: the vocabulary does not depend on the order of the corpus beyond
    the order of its entries: two corpora with the same tokens, each as many
    times, give vocabularies with the same tokens and the same size. *)
Theorem vocab_of_permuted_corpus tokens1 tokens2 min_freq reserved_tokens :
  flatten (default (Tokens1D []) tokens1)
    ≡ₚ flatten (default (Tokens1D []) tokens2) →
  idx_to_token (Vocab_init tokens1 min_freq reserved_tokens)
    ≡ₚ idx_to_token (Vocab_init tokens2 min_freq reserved_tokens)
  ∧ Vocab_len (Vocab_init tokens1 min_freq reserved_tokens)
    = Vocab_len (Vocab_init tokens2 min_freq reserved_tokens).
Proof.
  intros Hp.
  assert (idx_to_token (Vocab_init tokens1 min_freq reserved_tokens)
            ≡ₚ idx_to_token (Vocab_init tokens2 min_freq reserved_tokens))
    as Hperm.
  { rewrite !idx_to_token_init. constructor. apply Permutation_app_head.
    apply NoDup_Permutation; [apply corpus_tokens_NoDup..|].
    intros t. rewrite !corpus_tokens_elem.
    rewrite (occurrences_Permutation _ _ t Hp).
    assert (t ∈ flatten (default (Tokens1D []) tokens1)
            ↔ t ∈ flatten (default (Tokens1D []) tokens2)) as ->; [|done].
    by rewrite Hp. }
  split; [done|]. unfold Vocab_len. by rewrite Hperm.
Qed.

Lemma vocab_of_permuted_corpus_witness :
  Vocab_len (Vocab_init (Some (Tokens1D ["a"; "b"; "a"])) 0 None)
  = Vocab_len (Vocab_init (Some (Tokens2D [["b"]; ["a"; "a"]])) 0 None).
Proof.
  apply vocab_of_permuted_corpus. simpl.
  apply (Permutation_cons_append ["b"; "a"] "a").
Defined.

(** X18: a vocabulary holds at least the unknown token and the reserved
    tokens, and beyond them at most one entry per token of the corpus. *)
Theorem size_bounds tokens min_freq reserved_tokens :
  let flat := flatten (default (Tokens1D []) tokens) in
  let reserved := default [] reserved_tokens in
  1 + Z.of_nat (length reserved)
  ≤ Vocab_len (Vocab_init tokens min_freq reserved_tokens)
  ≤ 1 + Z.of_nat (length reserved) + Z.of_nat (length flat).
Proof.
  intros flat reserved. rewrite Vocab_len_init. fold reserved.
  split; [lia|]. apply Z.add_le_mono_l, Nat2Z.inj_le, submseteq_length.
  apply NoDup_submseteq; [apply corpus_tokens_NoDup|].
  intros t Ht. by apply corpus_tokens_elem in Ht as (? & _).
Qed.

(** ** The encoded corpus *)

Lemma load_corpus_unfold (raw : list string) (max_tokens : Z) :
  let tokens := list_of_str <$> read_time_machine raw in
  let vocab := Vocab_init (Some (Tokens2D tokens)) 0 None in
  load_corpus_time_machine raw max_tokens
  = Return (Idx <$> (if bool_decide (0 < max_tokens)
                     then take (Z.to_nat max_tokens)
                            (token_to_index vocab <$> concat tokens)
                     else token_to_index vocab <$> concat tokens),
            vocab).
Proof.
  intros tokens vocab. unfold load_corpus_time_machine.
  change (tokenize (read_time_machine raw) "char").2
    with (Return (Some tokens) : result (option (list (list string)))).
  cbv beta iota. change (Tokens2D <$> Some tokens) with (Some (Tokens2D tokens)).
  fold vocab.
  change ((λ token, Vocab_getitem vocab (Token token)) <$> concat tokens)
    with ((λ t, Idx (token_to_index vocab t)) <$> concat tokens).
  rewrite (list_fmap_compose (token_to_index vocab) Idx).
  do 2 f_equal. case_bool_decide; [|done].
  unfold py_slice_to. rewrite bool_decide_eq_true_2 by lia.
  by rewrite fmap_take.
Qed.

Lemma char_token_alphabet (c : ascii) :
  is_lower c || Ascii.eqb c space = true → String c EmptyString ∈ alphabet.
Proof.
  destruct c as [[] [] [] [] [] [] [] []]; intros H;
    try (by vm_compute in H); by apply (bool_decide_unpack _).
Qed.

Lemma unk_not_in_alphabet : unk_token ∉ alphabet.
Proof. by apply (bool_decide_unpack _). Qed.

Lemma list_of_str_alphabet (s : string) :
  str_forallb (λ c, is_lower c || Ascii.eqb c space) s = true →
  Forall (λ t, t ∈ alphabet) (list_of_str s).
Proof.
  induction s as [|c s IH]; simpl; [constructor|].
  intros [Hc Hs]%andb_prop. constructor; [by apply char_token_alphabet|auto].
Qed.

Lemma Forall_concat {A} (P : A → Prop) (ls : list (list A)) :
  Forall (Forall P) ls → Forall P (concat ls).
Proof.
  induction 1 as [|l ls Hl _ IH]; simpl; [constructor|].
  by apply Forall_app.
Qed.

(** The character tokens of normalised lines are tokens of [alphabet]. *)
Lemma corpus_chars_alphabet (raw : list string) :
  Forall (λ t, t ∈ alphabet) (concat (list_of_str <$> read_time_machine raw)).
Proof.
  apply Forall_concat. unfold read_time_machine.
  rewrite <- list_fmap_compose. apply Forall_fmap, Forall_forall.
  intros line _. simpl. apply list_of_str_alphabet.
  apply normalize_line_letter_words.
Qed.

(** Where the lookup of a token that the corpus part holds ends. *)
Lemma kept_token_lookup tokens min_freq reserved_tokens (t : string) :
  let flat := flatten (default (Tokens1D []) tokens) in
  let reserved := default [] reserved_tokens in
  let v := Vocab_init tokens min_freq reserved_tokens in
  t ∈ flat →
  min_freq ≤ Z.of_nat (occurrences flat t) →
  t ∉ unk_token :: reserved →
  t ∈ idx_to_token v
  ∧ 1 + Z.of_nat (length reserved) ≤ token_to_index v t < Vocab_len v.
Proof.
  intros flat reserved v Hf Hm Hn.
  assert (t ∈ idx_to_token v) as Hin.
  { unfold v. rewrite idx_to_token_init.
    apply list_elem_of_further, elem_of_app. right.
    by apply corpus_tokens_elem. }
  split; [done|].
  destruct (token_to_index_cases tokens min_freq reserved_tokens t)
    as [(_ & H0 & Hl)|[Hout _]]; [|done].
  destruct (corpus_position tokens min_freq reserved_tokens t _ Hn Hl)
    as [Hle _].
  apply lookup_lt_Some in Hl. fold v in H0, Hl, Hle. fold reserved in Hle.
  unfold Vocab_len. lia.
Qed.

(** X19: whatever the file holds, the vocabulary that the corpus encoder
    builds has at most 28 entries: the unknown token, the 26 letters and the
    space. *)
Theorem load_corpus_vocab_size (raw : list string) (max_tokens : Z) :
  ∃ corpus vocab,
    load_corpus_time_machine raw max_tokens = Return (corpus, vocab)
    ∧ 1 ≤ Vocab_len vocab ≤ 28.
Proof.
  eexists _, _. split; [apply load_corpus_unfold|].
  rewrite Vocab_len_init.
  change (length (default [] (@None (list string)))) with 0%nat.
  match goal with |- context [length (corpus_tokens ?tf ?m ?u)] =>
    assert (length (corpus_tokens tf m u) ≤ length alphabet)%nat as Hle end.
  { apply submseteq_length, NoDup_submseteq; [apply corpus_tokens_NoDup|].
    intros t Ht. apply corpus_tokens_elem in Ht as (Ht & _).
    pose proof (corpus_chars_alphabet raw) as Ha.
    rewrite Forall_forall in Ha. by apply Ha. }
  change (length alphabet) with 27%nat in Hle. lia.
Qed.

(** X20: every element of the encoded corpus is an index in [1, size()):
    the unknown index 0 never occurs in it. *)
Theorem load_corpus_indices_known (raw : list string) (max_tokens : Z) :
  ∃ corpus vocab,
    load_corpus_time_machine raw max_tokens = Return (corpus, vocab)
    ∧ Forall (λ x, ∃ i, x = Idx i ∧ 1 ≤ i < Vocab_len vocab) corpus.
Proof.
  eexists _, _. split; [apply load_corpus_unfold|].
  apply Forall_fmap.
  assert (Forall (λ i, 1 ≤ i < Vocab_len
                         (Vocab_init (Some (Tokens2D (list_of_str
                            <$> read_time_machine raw))) 0 None))
            (token_to_index
               (Vocab_init (Some (Tokens2D (list_of_str
                  <$> read_time_machine raw))) 0 None)
               <$> concat (list_of_str <$> read_time_machine raw))) as Hall.
  { apply Forall_fmap, Forall_forall. intros t Ht. simpl.
    destruct (kept_token_lookup
                (Some (Tokens2D (list_of_str <$> read_time_machine raw)))
                0 None t) as [_ Hr]; [done|lia| |simpl in Hr; lia].
    rewrite not_elem_of_cons. split; [|apply not_elem_of_nil].
    intros ->. pose proof (corpus_chars_alphabet raw) as Ha.
    rewrite Forall_forall in Ha. apply Ha in Ht.
    by apply unk_not_in_alphabet in Ht. }
  eapply Forall_impl; [|intros i Hi; exists i; split; [done|exact Hi]].
  case_bool_decide; [by apply Forall_take|done].
Qed.

Lemma decode_known tokens min_freq reserved_tokens (ts : list string) :
  let v := Vocab_init tokens min_freq reserved_tokens in
  Forall (λ t, t ∈ idx_to_token v) ts →
  getitem_each (idx_to_token v) (token_to_index v <$> ts) = Return ts.
Proof.
  intros v.
  pose proof (reverse_of_forward tokens min_freq reserved_tokens) as Hrev.
  cbv zeta in Hrev. fold v in Hrev. clearbody v.
  induction 1 as [|t ts Ht _ IH]; csimpl; [done|].
  by rewrite Hrev, decide_True, IH.
Qed.

(** X21: decoding the encoded corpus gives back the characters of the
    normalised lines, in document order: all of them when
    [max_tokens <= 0], the first [max_tokens] of them otherwise. *)
Theorem load_corpus_decode (raw : list string) (max_tokens : Z) :
  let all := concat (list_of_str <$> read_time_machine raw) in
  ∃ indices vocab,
    load_corpus_time_machine raw max_tokens = Return (Idx <$> indices, vocab)
    ∧ (Vocab_to_tokens vocab (IndexSeq indices)).1
      = Return (TokList (if bool_decide (0 < max_tokens)
                         then take (Z.to_nat max_tokens) all else all)).
Proof.
  intros all. eexists _, _. split; [apply load_corpus_unfold|].
  rewrite to_tokens_IndexSeq. fold all.
  set (tokens := Some (Tokens2D (list_of_str <$> read_time_machine raw))).
  assert (Forall (λ t, t ∈ idx_to_token (Vocab_init tokens 0 None)) all)
    as Hall.
  { apply Forall_forall. intros t Ht.
    apply (kept_token_lookup tokens 0 None t); [done|lia|].
    rewrite not_elem_of_cons. split; [|apply not_elem_of_nil].
    intros ->. pose proof (corpus_chars_alphabet raw) as Ha.
    rewrite Forall_forall in Ha. apply Ha in Ht.
    by apply unk_not_in_alphabet in Ht. }
  case_bool_decide.
  - rewrite <- fmap_take.
    by rewrite (decode_known tokens 0 None _ (Forall_take _ _ _ Hall)).
  - by rewrite (decode_known tokens 0 None _ Hall).
Qed.

Lemma length_list_of_str (s : string) : length (list_of_str s) = String.length s.
Proof. induction s as [|c s IH]; simpl; [done|by rewrite IH]. Qed.

Lemma length_concat_chars (lines : list string) :
  length (concat (list_of_str <$> lines))
  = sum_list (String.length <$> lines).
Proof.
  induction lines as [|l lines IH]; csimpl; [done|].
  by rewrite length_app, length_list_of_str, IH.
Qed.

(** X22: the encoded corpus has one index per character of the normalised
    lines, cut to [max_tokens] indices when [max_tokens] is positive. *)
Theorem load_corpus_length (raw : list string) (max_tokens : Z) :
  let total := sum_list (String.length <$> read_time_machine raw) in
  ∃ corpus vocab,
    load_corpus_time_machine raw max_tokens = Return (corpus, vocab)
    ∧ length corpus
      = if bool_decide (0 < max_tokens)
        then Nat.min (Z.to_nat max_tokens) total else total.
Proof.
  intros total. eexists _, _. split; [apply load_corpus_unfold|].
  rewrite length_fmap. case_bool_decide.
  - by rewrite length_take, length_fmap, length_concat_chars.
  - by rewrite length_fmap, length_concat_chars.
Qed.


(** ** Multi-head attention: the two transposes *)

Lemma div_mod_compose (x j d : nat) :
  (j < d)%nat → ((x * d + j) / d = x ∧ (x * d + j) `mod` d = j)%nat.
Proof.
  intros Hj. split; symmetry.
  - apply (Nat.div_unique _ d x j); lia.
  - apply (Nat.mod_unique _ d x j); lia.
Qed.

Lemma source_0213_compose (b c d i j k e : nat) :
  (j < b)%nat → (k < c)%nat → (e < d)%nat →
  source_0213 b c d (((i * c + k) * b + j) * d + e)
  = (((i * b + j) * c + k) * d + e)%nat.
Proof.
  intros Hj Hk He. unfold source_0213.
  destruct (div_mod_compose ((i * c + k) * b + j) e d He) as [-> ->].
  destruct (div_mod_compose (i * c + k) j b Hj) as [-> ->].
  by destruct (div_mod_compose i k c Hk) as [-> ->].
Qed.

(** Transposing back finds every element where it was. *)
Lemma source_0213_involutive (b c d q : nat) :
  (0 < b)%nat → (0 < c)%nat → (0 < d)%nat →
  source_0213 b c d (source_0213 c b d q) = q.
Proof.
  intros Hb Hc Hd. unfold source_0213 at 2.
  rewrite source_0213_compose by (apply Nat.mod_upper_bound; lia).
  pose proof (Nat.div_mod_eq q d) as H1.
  pose proof (Nat.div_mod_eq (q / d) c) as H2.
  pose proof (Nat.div_mod_eq (q / d / c) b) as H3.
  nia.
Qed.

Lemma source_0213_lt (a b c d p : nat) :
  (p < a * c * b * d)%nat → (source_0213 b c d p < a * b * c * d)%nat.
Proof.
  intros Hp. unfold source_0213.
  assert (0 < d ∧ 0 < b ∧ 0 < c)%nat as (Hd & Hb & Hc) by nia.
  pose proof (Nat.mod_upper_bound p d) as He.
  pose proof (Nat.mod_upper_bound (p / d) b) as Hj.
  pose proof (Nat.mod_upper_bound (p / d / b) c) as Hk.
  assert (p / d / b / c < a)%nat as Hi.
  { repeat apply Nat.Div0.div_lt_upper_bound. nia. }
  specialize (He ltac:(lia)). specialize (Hj ltac:(lia)).
  specialize (Hk ltac:(lia)).
  generalize dependent (p `mod` d)%nat. intros e He.
  generalize dependent ((p / d) `mod` b)%nat. intros j Hj.
  generalize dependent ((p / d / b) `mod` c)%nat. intros k Hk.
  generalize dependent (p / d / b / c)%nat. intros i Hi.
  assert (i * b + j < a * b)%nat as H1 by nia.
  assert ((i * b + j) * c + k < a * b * c)%nat as H2 by nia.
  nia.
Qed.

Lemma gather_fmap {A} (l : list A) (g : nat → nat) (xs : list nat) :
  Forall (λ q, g q < length l)%nat xs →
  Some <$> (xs ≫= λ q, option_list (l !! g q)) = (λ q, l !! g q) <$> xs.
Proof.
  induction 1 as [|q xs Hq _ IH]; [done|].
  rewrite bind_cons, fmap_app, IH. csimpl.
  destruct (lookup_lt_is_Some_2 l (g q) Hq) as [x ->]. done.
Qed.

(** Gathering [n] elements of [l] from positions in range gives a list of
    [n] elements, the one at [p] being [l] at [g p]. *)
Lemma gather_lookup {A} (l : list A) (g : nat → nat) (n p : nat) :
  (∀ q, q < n → g q < length l)%nat →
  length (seq 0 n ≫= λ q, option_list (l !! g q)) = n
  ∧ ((p < n)%nat → (seq 0 n ≫= λ q, option_list (l !! g q)) !! p = l !! g p).
Proof.
  intros Hg.
  assert (Some <$> (seq 0 n ≫= λ q, option_list (l !! g q))
          = (λ q, l !! g q) <$> seq 0 n) as Heq.
  { apply gather_fmap, Forall_forall. intros q Hq%elem_of_seq. apply Hg. lia. }
  split.
  - apply (f_equal length) in Heq. by rewrite !length_fmap, length_seq in Heq.
  - intros Hp. apply (f_equal (λ xs, xs !! p)) in Heq.
    rewrite !list_lookup_fmap, lookup_seq_lt in Heq by done. simpl in Heq.
    destruct ((seq 0 n ≫= λ q, option_list (l !! g q)) !! p) as [x|];
      simpl in Heq; [by injection Heq|discriminate].
Qed.

Lemma filter_dims_nonneg (dims : list Z) :
  Forall (λ d, 0 ≤ d) dims →
  filter (λ d, d ≠ -1) dims = dims ∧ filter (λ d, d = -1) dims = [].
Proof.
  induction 1 as [|d dims Hd _ [IH1 IH2]]; [done|].
  rewrite !filter_cons, IH1, IH2.
  rewrite decide_True by lia. by rewrite decide_False by lia.
Qed.

Lemma dims_size_app (l k : list nat) :
  dims_size (l ++ k) = (dims_size l * dims_size k)%nat.
Proof. induction l as [|x l IH]; simpl; [lia|]. rewrite IH. lia. Qed.

(** Reshaping with one inferred dimension, between dimensions that are
    given. *)
Lemma nd_reshape_infer_cases {A} (X : ndarray A) (pre post : list nat) :
  let known := (dims_size pre * dims_size post)%nat in
  nd_reshape X ((Z.of_nat <$> pre) ++ [-1] ++ (Z.of_nat <$> post))
  = if bool_decide (known ≠ 0%nat ∧ (length (data X) `mod` known)%nat = 0%nat)
    then Some (mk_ndarray (pre ++ [(length (data X) / known)%nat] ++ post)
                 (data X))
    else None.
Proof.
  intros known. unfold nd_reshape.
  assert (∀ l : list nat, Forall (λ d, 0 ≤ d) (Z.of_nat <$> l)) as Hnn.
  { intros l. apply Forall_fmap, Forall_forall. intros x _. simpl. lia. }
  assert (∀ l : list nat, Z.to_nat <$> (Z.of_nat <$> l) = l) as Hid.
  { intros l. rewrite <- list_fmap_compose. rewrite <- (list_fmap_id l) at 2.
    apply list_fmap_ext. intros _ x _. simpl. lia. }
  rewrite bool_decide_eq_true_2; last first.
  { rewrite !Forall_app. split_and!.
    - eapply Forall_impl; [apply Hnn|]. simpl. lia.
    - by repeat constructor.
    - eapply Forall_impl; [apply Hnn|]. simpl. lia. }
  rewrite !filter_app.
  rewrite (proj1 (filter_dims_nonneg _ (Hnn pre))),
    (proj2 (filter_dims_nonneg _ (Hnn pre))),
    (proj1 (filter_dims_nonneg _ (Hnn post))),
    (proj2 (filter_dims_nonneg _ (Hnn post))).
  change (filter (λ d : Z, d ≠ -1) [-1]) with (@nil Z).
  change (filter (λ d : Z, d = -1) [-1]) with [-1].
  rewrite app_nil_l, app_nil_r. cbn [length app].
  rewrite fmap_app, !Hid, dims_size_app. fold known.
  case_bool_decide; [|done].
  do 2 f_equal. rewrite !fmap_app. f_equal.
  - rewrite <- list_fmap_compose. rewrite <- (list_fmap_id pre) at 2.
    apply list_fmap_ext. intros _ x _. simpl.
    rewrite bool_decide_eq_false_2 by lia. lia.
  - csimpl. f_equal.
    rewrite <- list_fmap_compose. rewrite <- (list_fmap_id post) at 2.
    apply list_fmap_ext. intros _ x _. simpl.
    rewrite bool_decide_eq_false_2 by lia. lia.
Qed.

Lemma nd_reshape_infer {A} (X : ndarray A) (pre post : list nat) (m : nat) :
  let known := (dims_size pre * dims_size post)%nat in
  known ≠ 0%nat →
  length (data X) = (m * known)%nat →
  nd_reshape X ((Z.of_nat <$> pre) ++ [-1] ++ (Z.of_nat <$> post))
  = Some (mk_ndarray (pre ++ [m] ++ post) (data X)).
Proof.
  intros known Hk Hlen. rewrite nd_reshape_infer_cases. fold known.
  rewrite bool_decide_eq_true_2; last first.
  { split; [done|]. rewrite Hlen. apply Nat.Div0.mod_mul. }
  by rewrite Hlen, Nat.div_mul.
Qed.

(** What [transpose_qkv] returns for an array of shape [b, n, h * d]. *)
Lemma transpose_qkv_eq {A} (X : ndarray A) (b n h d : nat) :
  (0 < b)%nat → (0 < n)%nat → (0 < h)%nat → (0 < d)%nat →
  shape X = [b; n; (h * d)%nat] →
  length (data X) = (b * n * (h * d))%nat →
  transpose_qkv X (Z.of_nat h)
  = Some (mk_ndarray [(b * h)%nat; n; d]
            (seq 0 (b * h * n * d)
               ≫= λ p, option_list (data X !! source_0213 n h d p))).
Proof.
  intros Hb Hn Hh Hd Hs Hlen. unfold transpose_qkv. rewrite Hs.
  pose proof (nd_reshape_infer X [b; n; h] [] d) as H1.
  csimpl in H1. cbn [list_lookup lookup]. csimpl.
  rewrite H1 by nia. csimpl. unfold transpose_0213.
  cbn [shape data]. csimpl.
  set (T := seq 0 (b * h * n * d)
              ≫= λ p, option_list (data X !! source_0213 n h d p)).
  assert (length T = (b * h * n * d)%nat) as HT.
  { apply (gather_lookup (data X) (source_0213 n h d) (b * h * n * d) 0).
    intros q Hq. rewrite Hlen.
    pose proof (source_0213_lt b n h d q Hq). nia. }
  pose proof (nd_reshape_infer (mk_ndarray [b; h; n; d] T) [] [n; d] (b * h))
    as H2.
  csimpl in H2. rewrite H2; [done|nia|nia].
Qed.

(** What [transpose_output] returns for an array of shape [b * h, n, d]. *)
Lemma transpose_output_eq {A} (Y : ndarray A) (b n h d : nat) :
  (0 < b)%nat → (0 < n)%nat → (0 < h)%nat → (0 < d)%nat →
  shape Y = [(b * h)%nat; n; d] →
  length (data Y) = (b * h * n * d)%nat →
  transpose_output Y (Z.of_nat h)
  = Some (mk_ndarray [b; n; (h * d)%nat]
            (seq 0 (b * n * h * d)
               ≫= λ p, option_list (data Y !! source_0213 h n d p))).
Proof.
  intros Hb Hn Hh Hd Hs Hlen. unfold transpose_output. rewrite Hs.
  pose proof (nd_reshape_infer Y [] [h; n; d] b) as H1.
  csimpl in H1. cbn [list_lookup lookup]. csimpl.
  rewrite H1 by nia. csimpl. unfold transpose_0213.
  cbn [shape data]. csimpl.
  set (T := seq 0 (b * n * h * d)
              ≫= λ p, option_list (data Y !! source_0213 h n d p)).
  assert (length T = (b * n * h * d)%nat) as HT.
  { apply (gather_lookup (data Y) (source_0213 h n d) (b * n * h * d) 0).
    intros q Hq. rewrite Hlen.
    pose proof (source_0213_lt b h n d q Hq). nia. }
  pose proof (nd_reshape_infer (mk_ndarray [b; n; h; d] T) [b; n] [] (h * d))
    as H2.
  csimpl in H2. rewrite H2; [done|nia|nia].
Qed.

(** X23: for an array [X] of shape [b, n, h * d] (all positive),
    [transpose_qkv(X, h)] has shape [b * h, n, d] and as many elements as
    [X], and its element [bi * h + hi, ni, di] is the element
    [bi, ni, hi * d + di] of [X]: row [bi * h + hi] is head [hi] of batch
    entry [bi]. *)
Theorem transpose_qkv_heads {A} (X : ndarray A) (b n h d : nat) :
  (0 < b)%nat → (0 < n)%nat → (0 < h)%nat → (0 < d)%nat →
  shape X = [b; n; (h * d)%nat] →
  length (data X) = (b * n * (h * d))%nat →
  ∃ Y, transpose_qkv X (Z.of_nat h) = Some Y
       ∧ shape Y = [(b * h)%nat; n; d]
       ∧ length (data Y) = length (data X)
       ∧ ∀ bi hi ni di, (bi < b)%nat → (hi < h)%nat → (ni < n)%nat →
           (di < d)%nat →
           data Y !! (((bi * h + hi) * n + ni) * d + di)%nat
           = data X !! ((bi * n + ni) * (h * d) + (hi * d + di))%nat.
Proof.
  intros Hb Hn Hh Hd Hs Hlen. eexists.
  split; [by apply (transpose_qkv_eq X b n h d)|].
  cbn [shape data].
  assert (∀ q, q < b * h * n * d → source_0213 n h d q < length (data X))%nat
    as Hsrc.
  { intros q Hq. rewrite Hlen. pose proof (source_0213_lt b n h d q Hq). nia. }
  split_and!; [done| |].
  - rewrite (proj1 (gather_lookup _ _ _ 0%nat Hsrc)). nia.
  - intros bi hi ni di Hbi Hhi Hni Hdi.
    rewrite (proj2 (gather_lookup _ _ _ _ Hsrc)).
    + rewrite source_0213_compose by done. f_equal. nia.
    + assert (bi * h + hi < b * h)%nat as H1 by nia.
      assert ((bi * h + hi) * n + ni < b * h * n)%nat as H2 by nia.
      nia.
Qed.

Lemma transpose_qkv_heads_witness :
  ∃ Y, transpose_qkv (mk_ndarray [1; 2; 4]%nat ["a"; "b"; "c"; "d"; "e"; "f"; "g"; "h"])
         (Z.of_nat 2) = Some Y
       ∧ shape Y = [2; 2; 2]%nat
       ∧ data Y !! 2%nat = Some "e".
Proof.
  destruct (transpose_qkv_heads
              (mk_ndarray [1; 2; 4]%nat
                 ["a"; "b"; "c"; "d"; "e"; "f"; "g"; "h"]) 1 2 2 2)
    as (Y & HY & Hsh & _ & Hel); [lia|lia|lia|lia|done|done|].
  exists Y. split_and!; [done|done|].
  apply (Hel 0 0 1 0)%nat; lia.
Defined.

(** X24: [transpose_output] reverses [transpose_qkv]: for an array [X] of
    shape [b, n, h * d] (all positive), applying [transpose_qkv] and then
    [transpose_output] with the same number of heads gives [X] back. *)
Theorem transpose_output_reverses {A} (X : ndarray A) (b n h d : nat) :
  (0 < b)%nat → (0 < n)%nat → (0 < h)%nat → (0 < d)%nat →
  shape X = [b; n; (h * d)%nat] →
  length (data X) = (b * n * (h * d))%nat →
  ∃ Y, transpose_qkv X (Z.of_nat h) = Some Y
       ∧ transpose_output Y (Z.of_nat h) = Some X.
Proof.
  intros Hb Hn Hh Hd Hs Hlen. eexists.
  split; [by apply (transpose_qkv_eq X b n h d)|].
  assert (∀ q, q < b * h * n * d → source_0213 n h d q < length (data X))%nat
    as Hsrc.
  { intros q Hq. rewrite Hlen. pose proof (source_0213_lt b n h d q Hq). nia. }
  destruct (gather_lookup (data X) (source_0213 n h d) (b * h * n * d) 0 Hsrc)
    as [HlenT _].
  rewrite (transpose_output_eq _ b n h d); [|done..].
  destruct X as [sh dat]. simpl in *. subst sh. do 2 f_equal.
  set (T := seq 0 (b * h * n * d)
              ≫= λ p, option_list (dat !! source_0213 n h d p)) in *.
  assert (∀ q, q < b * n * h * d → source_0213 h n d q < length T)%nat
    as Hsrc2.
  { intros q Hq. rewrite HlenT. pose proof (source_0213_lt b h n d q Hq). nia. }
  apply list_eq. intros p.
  destruct (decide (p < b * n * h * d)%nat) as [Hp|Hp].
  - rewrite (proj2 (gather_lookup T _ _ p Hsrc2) Hp). unfold T.
    rewrite (proj2 (gather_lookup dat _ _ _ Hsrc)).
    + by rewrite source_0213_involutive.
    + pose proof (source_0213_lt b h n d p Hp). nia.
  - rewrite !lookup_ge_None_2; [done|lia|].
    rewrite (proj1 (gather_lookup T _ _ 0%nat Hsrc2)). lia.
Qed.

Lemma transpose_output_reverses_witness :
  ∃ Y, transpose_qkv (mk_ndarray [2; 1; 4]%nat (seq 0 8)) (Z.of_nat 2) = Some Y
       ∧ transpose_output Y (Z.of_nat 2)
         = Some (mk_ndarray [2; 1; 4]%nat (seq 0 8)).
Proof.
  apply (transpose_output_reverses _ 2 1 2 2); (lia || done).
Defined.

(** X25: when the number of heads does not divide the last dimension,
    [transpose_qkv] fails in its first reshape. *)
Theorem transpose_qkv_indivisible {A} (X : ndarray A) (b n hid h : nat) :
  shape X = [b; n; hid] →
  length (data X) = (b * n * hid)%nat →
  (0 < h)%nat →
  (hid `mod` h)%nat ≠ 0%nat →
  transpose_qkv X (Z.of_nat h) = None.
Proof.
  intros Hs Hlen Hh Hmod. unfold transpose_qkv. rewrite Hs.
  pose proof (nd_reshape_infer_cases X [b; n; h] []) as H1.
  csimpl in H1. cbn [list_lookup lookup]. csimpl.
  rewrite H1, bool_decide_eq_false_2; [done|].
  intros [Hk Hz]. apply Hmod. rewrite Hlen in Hz.
  replace (b * (n * (h * 1)) * 1)%nat with ((b * n) * h)%nat in Hz, Hk by lia.
  rewrite Nat.Div0.mul_mod_distr_l in Hz. nia.
Qed.

Lemma transpose_qkv_indivisible_witness :
  transpose_qkv (mk_ndarray [1; 1; 3]%nat [1; 2; 3]) (Z.of_nat 2) = None.
Proof. apply (transpose_qkv_indivisible _ 1 1 3 2); (lia || done). Defined.
